(** * Football match simulation: physics engine, set pieces, match simulator

    A shallow embedding of [src/src/football_simulation.py].

    Coordinates are numpy [float64] values in the source; here they are
    real numbers, so the arithmetic is the exact one and rounding is not
    modelled; the properties of the simulator below use a distance only
    by comparing it with the interception radius.  A position (a two-element list or array in the source) is a
    pair.  Player objects are mutated in place by the set-piece code and are
    shared by reference between rosters, so they live in an object store
    indexed by address; the process-wide numpy generator is part of the same
    world.  None of the modelled operations can raise on well-typed
    arguments, so they are total functions on the world. *)

From Stdlib Require Import Reals Lra Psatz.
From stdpp Require Import base decidable option list strings.
From stdpp Require Import pretty.

Open Scope R_scope.

(** ** Decidable comparisons on coordinates *)

#[global] Instance R_eq_decision : EqDecision R := Req_dec_T.
#[global] Instance Rle_decision (x y : R) : Decision (x <= y) := Rle_dec x y.
#[global] Instance Rlt_decision (x y : R) : Decision (x < y) := Rlt_dec x y.
#[global] Instance Rgt_decision (x y : R) : Decision (x > y) := Rgt_dec x y.

(** ** numpy operations on two-component arrays *)

Definition Vec : Type := R * R.

Definition vsub (u v : Vec) : Vec := (u.1 - v.1, u.2 - v.2).
Definition vadd (u v : Vec) : Vec := (u.1 + v.1, u.2 + v.2).
Definition vscale (t : R) (v : Vec) : Vec := (t * v.1, t * v.2).
(* [v**2], elementwise *)
Definition vsquare (v : Vec) : Vec := (v.1 * v.1, v.2 * v.2).
Definition np_sum (v : Vec) : R := v.1 + v.2.
Definition np_dot (u v : Vec) : R := u.1 * v.1 + u.2 * v.2.
(* [np.clip(t, lo, hi)] is [minimum(hi, maximum(t, lo))] *)
Definition np_clip (t lo hi : R) : R := Rmin hi (Rmax t lo).
Definition np_sqrt (x : R) : R := sqrt x.

(** Euclidean distance between two points, the specification side. *)
Definition euclid (p q : Vec) : R :=
  sqrt ((p.1 - q.1) * (p.1 - q.1) + (p.2 - q.2) * (p.2 - q.2)).

(** The point [a + s (b - a)] of the line through [a] and [b]. *)
Definition along (a b : Vec) (s : R) : Vec := vadd a (vscale s (vsub b a)).

(** ** Supporting classes *)

Module Player.
Record t : Type := mk {
  name : string;
  position : Vec;
  position_role : string;      (* GK, DEF, MF, FWD *)
  interception_stat : R
}.

(* [p.position = pos] *)
Definition set_position (pos : Vec) (p : t) : t :=
  {| name := name p; position := pos;
     position_role := position_role p;
     interception_stat := interception_stat p |}.

#[global] Instance eq_dec : EqDecision t.
Proof. solve_decision. Defined.
End Player.

(** A roster holds references to player objects. *)
Definition addr : Type := nat.

Module Team.
Record t : Type := mk {
  name : string;
  players : list addr
}.
End Team.

Module Ball.
Record t : Type := mk { position : Vec }.
(* [Ball()]: centre of the pitch *)
Definition new : t := {| position := (52.5, 34) |}.
End Ball.

Inductive GameState : Type := OPEN_PLAY | CORNER | GOAL_KICK | THROW_IN.

Inductive Result : Type := SUCCESS | INTERCEPTED | SHOT | DRIBBLE.

(** ** The world: player objects and the global numpy generator *)

(** The generator is described by the samples of [np.random.random()] it
    will hand out and by how many it has handed out so far. *)
Record RandomState : Type := {
  sample : nat -> R;
  cursor : nat
}.

Record World : Type := {
  objects : list Player.t;
  np_random : RandomState
}.

Definition M (A : Type) : Type := World -> A * World.

#[global] Instance M_ret : MRet M := fun A (x : A) w => (x, w).
#[global] Instance M_bind : MBind M :=
  fun A B (k : A -> M B) (m : M A) w => let '(x, w') := m w in k x w'.

(* [np.random.random()] *)
Definition np_random_random : M R := fun w =>
  let g := np_random w in
  (sample g (cursor g),
   {| objects := objects w;
      np_random := {| sample := sample g; cursor := S (cursor g) |} |}).

(* [np.random.uniform(low, high)] *)
Definition np_random_uniform (low high : R) : M R :=
  u ← np_random_random; mret (low + (high - low) * u).

(* reading the object behind a reference; a roster only holds references to
   live objects, so an address outside the store stands for no player *)
Definition get_player (i : addr) : M (option Player.t) := fun w =>
  (objects w !! i, w).

(* [team.players], as the objects the roster refers to *)
Definition get_players (team : Team.t) : M (list Player.t) := fun w =>
  (omap (fun i => objects w !! i) (Team.players team), w).

(* [p.position = pos] on the object at address [i] *)
Definition set_player_position (i : addr) (pos : Vec) : M unit := fun w =>
  (tt, {| objects := alter (Player.set_position pos) i (objects w);
          np_random := np_random w |}).

(* [for x in l: body(x)] *)
Fixpoint for_each {A : Type} (l : list A) (body : A -> M unit) : M unit :=
  match l with
  | [] => mret tt
  | x :: l' => _ ← body x; for_each l' body
  end.

(* [t1 == t2] on dataclass instances: field by field, rosters element by
   element on the referenced objects *)
Definition team_eq (t1 t2 : Team.t) : M bool := fun w =>
  (bool_decide (Team.name t1 = Team.name t2 /\
                (fun i => objects w !! i) <$> Team.players t1 =
                (fun i => objects w !! i) <$> Team.players t2), w).

(** ** PART 1: PhysicsEngine (ray-cast interception) *)

Module PhysicsEngine.

Definition get_distance_point_to_segment (p a b : Vec) : R :=
  let ab := vsub b a in
  let ap := vsub p a in
  let len_sq := np_sum (vsquare ab) in
  if decide (len_sq = 0) then np_sqrt (np_sum (vsquare (vsub p a)))
  else
    let t := np_dot ap ab / len_sq in
    let t := np_clip t 0 1 in
    let closest := vadd a (vscale t ab) in
    np_sqrt (np_sum (vsquare (vsub p closest))).

Fixpoint check_interception (pass_start pass_end : Vec)
    (defenders : list Player.t) (interception_radius : R)
    : bool * option Player.t :=
  match defenders with
  | [] => (false, None)
  | defender :: rest =>
      let p := Player.position defender in
      let dist := get_distance_point_to_segment p pass_start pass_end in
      if decide (dist < interception_radius) then (true, Some defender)
      else check_interception pass_start pass_end rest interception_radius
  end.

(* the default value of [interception_radius] *)
Definition default_radius : R := 2.

End PhysicsEngine.

(** ** PART 2: SetPieceManager *)

Module SetPieceManager.

Record t : Type := mk { game_state : GameState }.

(* [SetPieceManager()] *)
Definition new : t := {| game_state := OPEN_PLAY |}.

Definition check_boundaries (ball_x ball_y : R) : M GameState :=
  if decide ((0 <= ball_x /\ ball_x <= 105) /\ (0 <= ball_y /\ ball_y <= 68))
  then mret OPEN_PLAY
  else if decide (ball_x > 105) then
    u ← np_random_random;
    mret (if decide (u > 0.5) then CORNER else GOAL_KICK)
  else if decide (ball_x < 0) then mret CORNER
  else mret THROW_IN.

(* the body of the loop over the attacking roster *)
Definition place_attacker (i : addr) : M unit :=
  o ← get_player i;
  match o with
  | Some p =>
      if decide (Player.position_role p <> "GK"%string) then
        x ← np_random_uniform 95 104;
        y ← np_random_uniform 20 48;
        set_player_position i (x, y)
      else mret tt
  | None => mret tt
  end.

(* the body of the loop over the defending roster *)
Definition place_defender (i : addr) : M unit :=
  o ← get_player i;
  match o with
  | Some p =>
      if decide (Player.position_role p = "GK"%string) then
        set_player_position i (104, 34)
      else
        x ← np_random_uniform 95 104;
        y ← np_random_uniform 20 48;
        set_player_position i (x, y)
  | None => mret tt
  end.

Definition resolve_set_piece (state : GameState)
    (attacking_team defending_team : Team.t) : M Vec :=
  let ball_pos : Vec := (0, 0) in
  match state with
  | CORNER =>
      u ← np_random_random;
      let corner_side : R := if decide (u < 0.5) then 0 else 68 in
      let ball_pos : Vec := (105, corner_side) in
      _ ← for_each (Team.players attacking_team) place_attacker;
      _ ← for_each (Team.players defending_team) place_defender;
      mret ball_pos
  | GOAL_KICK =>
      let ball_pos : Vec := (5, 34) in
      mret ball_pos
  | _ => mret ball_pos
  end.

End SetPieceManager.

(** ** PART 3: MatchSimulator *)

(** The event dictionary; the keys that are not always present are
    options. *)
Module Event.
Record t : Type := mk {
  action : string;
  ball_pos_before : Vec;
  possession_before : string;
  game_state : GameState;
  result : option Result;
  interceptor : option string;
  set_piece : option GameState;
  ball_pos_after : Vec;
  possession_after : string
}.
End Event.

Module MatchSimulator.

Record t : Type := mk {
  home_team : Team.t;
  away_team : Team.t;
  ball : Ball.t;
  possession_team : Team.t;
  set_piece_manager : SetPieceManager.t;
  events : list Event.t
}.

(* [MatchSimulator(home_team, away_team)] *)
Definition new (home_team away_team : Team.t) : t :=
  {| home_team := home_team;
     away_team := away_team;
     ball := Ball.new;
     possession_team := home_team;
     set_piece_manager := SetPieceManager.new;
     events := [] |}.

Definition set_ball_position (pos : Vec) (self : t) : t :=
  {| home_team := home_team self; away_team := away_team self;
     ball := {| Ball.position := pos |};
     possession_team := possession_team self;
     set_piece_manager := set_piece_manager self;
     events := events self |}.

Definition set_possession_team (team : Team.t) (self : t) : t :=
  {| home_team := home_team self; away_team := away_team self;
     ball := ball self;
     possession_team := team;
     set_piece_manager := set_piece_manager self;
     events := events self |}.

Definition set_game_state (state : GameState) (self : t) : t :=
  {| home_team := home_team self; away_team := away_team self;
     ball := ball self;
     possession_team := possession_team self;
     set_piece_manager := {| SetPieceManager.game_state := state |};
     events := events self |}.

Definition append_event (event : Event.t) (self : t) : t :=
  {| home_team := home_team self; away_team := away_team self;
     ball := ball self;
     possession_team := possession_team self;
     set_piece_manager := set_piece_manager self;
     events := events self ++ [event] |}.

(** What the action handling of a step leaves behind: the simulator, the
    defending team it determined, and the [result] and [interceptor]
    entries of the event, if any. *)
Record Handled : Type := {
  h_self : t;
  h_defending : Team.t;
  h_result : option Result;
  h_interceptor : option string
}.

(* the team that is not in possession *)
Definition get_defending_team (self : t) : M Team.t :=
  in_possession ← team_eq (possession_team self) (home_team self);
  mret (if in_possession : bool then away_team self else home_team self).

(* the first half of [simulate_step]: defending team and ACTION HANDLING *)
Definition handle_action (action : string) (target_pos : option Vec)
    (self : t) : M Handled :=
  defending_team ← get_defending_team self;
  match String.eqb action "PASS", target_pos with
  | true, Some target_pos =>
      defenders ← get_players defending_team;
      let '(intercepted, defender) :=
        PhysicsEngine.check_interception (Ball.position (ball self))
          target_pos defenders PhysicsEngine.default_radius in
      (* [check_interception] never answers [(True, None)], see
         [check_interception_shape], so [defender.name] is always defined *)
      match intercepted, defender with
      | true, Some defender =>
          mret {| h_self :=
                    set_ball_position (Player.position defender)
                      (set_possession_team defending_team self);
                  h_defending := defending_team;
                  h_result := Some INTERCEPTED;
                  h_interceptor := Some (Player.name defender) |}
      | _, _ =>
          mret {| h_self := set_ball_position target_pos self;
                  h_defending := defending_team;
                  h_result := Some SUCCESS;
                  h_interceptor := None |}
      end
  | _, _ =>
  match String.eqb action "SHOOT", target_pos with
  | true, Some target_pos =>
      mret {| h_self := set_ball_position target_pos self;
              h_defending := defending_team;
              h_result := Some SHOT;
              h_interceptor := None |}
  | _, _ =>
  match String.eqb action "DRIBBLE", target_pos with
  | true, Some target_pos =>
      mret {| h_self := set_ball_position target_pos self;
              h_defending := defending_team;
              h_result := Some DRIBBLE;
              h_interceptor := None |}
  | _, _ =>
      mret {| h_self := self;
              h_defending := defending_team;
              h_result := None;
              h_interceptor := None |}
  end end end.

(* the second half of [simulate_step]: BOUNDARY CHECK; returns the
   [set_piece] entry of the event, if any *)
Definition boundary_check (self : t) (defending_team : Team.t)
    : M (option GameState * t) :=
  new_state ← SetPieceManager.check_boundaries
                (Ball.position (ball self)).1 (Ball.position (ball self)).2;
  match new_state with
  | OPEN_PLAY => mret (None, set_game_state OPEN_PLAY self)
  | _ =>
      ball_pos ← SetPieceManager.resolve_set_piece new_state
                   (possession_team self) defending_team;
      mret (Some new_state,
            set_game_state new_state (set_ball_position ball_pos self))
  end.

Definition simulate_step (action : string) (target_pos : option Vec)
    (self : t) : M (Event.t * t) :=
  let ball_pos_before := Ball.position (ball self) in
  let possession_before := Team.name (possession_team self) in
  let game_state := SetPieceManager.game_state (set_piece_manager self) in
  h ← handle_action action target_pos self;
  '(set_piece, self) ← boundary_check (h_self h) (h_defending h);
  let event :=
    {| Event.action := action;
       Event.ball_pos_before := ball_pos_before;
       Event.possession_before := possession_before;
       Event.game_state := game_state;
       Event.result := h_result h;
       Event.interceptor := h_interceptor h;
       Event.set_piece := set_piece;
       Event.ball_pos_after := Ball.position (ball self);
       Event.possession_after := Team.name (possession_team self) |} in
  mret (event, append_event event self).

Definition get_training_data (self : t) : list Event.t := events self.

Definition reset (self : t) : M t :=
  mret {| home_team := home_team self;
          away_team := away_team self;
          ball := Ball.new;
          possession_team := home_team self;
          set_piece_manager := {| SetPieceManager.game_state := OPEN_PLAY |};
          events := [] |}.

(* a caller running [simulate_step] once per entry, in order *)
Fixpoint run (calls : list (string * option Vec)) (self : t) : M t :=
  match calls with
  | [] => mret self
  | (action, target_pos) :: rest =>
      '(_, self) ← simulate_step action target_pos self;
      run rest self
  end.

End MatchSimulator.

(** ** The fixture of the unit tests

    [TestMatchSimulator.setUp]: one attacker at home, one defender away,
    the ball staged at the attacker's feet. *)

Definition fixture_objects : list Player.t :=
  [ {| Player.name := "Attacker"; Player.position := (40, 34);
       Player.position_role := "FWD"; Player.interception_stat := 0.5 |};
    {| Player.name := "Defender"; Player.position := (52, 34);
       Player.position_role := "DEF"; Player.interception_stat := 0.5 |} ].

Definition fixture_home : Team.t :=
  {| Team.name := "Home"; Team.players := [0%nat] |}.

Definition fixture_away : Team.t :=
  {| Team.name := "Away"; Team.players := [1%nat] |}.

Definition fixture : MatchSimulator.t :=
  MatchSimulator.set_ball_position (40, 34)
    (MatchSimulator.new fixture_home fixture_away).

(* a generator whose samples alternate between 0.75 and 0.25 *)
Definition fixture_random : RandomState :=
  {| sample := fun n => if Nat.even n then 0.75 else 0.25; cursor := 0 |}.

Definition fixture_world : World :=
  {| objects := fixture_objects; np_random := fixture_random |}.

(* a simulator whose two teams have no players *)
Definition bare_simulator : MatchSimulator.t :=
  MatchSimulator.new {| Team.name := "Home"; Team.players := [] |}
                     {| Team.name := "Away"; Team.players := [] |}.

(* the fixture's world with the generator one sample further along a
   stream that is the same from there on *)
Definition shifted_world : World :=
  {| objects := fixture_objects;
     np_random := {| sample := fun n => if Nat.odd n then 0.75 else 0.25;
                     cursor := 1 |} |}.

(** ** Vocabulary of the properties *)

(** Inside the pitch, touchlines and goal lines included. *)
Definition in_play (pos : Vec) : Prop :=
  (0 <= pos.1 /\ pos.1 <= 105) /\ (0 <= pos.2 /\ pos.2 <= 68).

(** The goalmouth box of a corner kick. *)
Definition in_box (pos : Vec) : Prop :=
  (95 <= pos.1 /\ pos.1 <= 104) /\ (20 <= pos.2 /\ pos.2 <= 48).

(** [np.random.random()] samples the half-open unit interval. *)
Definition unit_interval (g : RandomState) : Prop :=
  forall n, 0 <= sample g n /\ sample g n < 1.

(** Two generators that will hand out the same samples from now on. *)
Definition same_stream (g1 g2 : RandomState) : Prop :=
  forall n, sample g1 (cursor g1 + n) = sample g2 (cursor g2 + n).

(** Two worlds a program cannot tell apart. *)
Definition same_world (w1 w2 : World) : Prop :=
  objects w1 = objects w2 /\ same_stream (np_random w1) (np_random w2).

(** A computation whose result and effect depend on the world only through
    the player objects and the samples still to come. *)
Definition deterministic {A : Type} (m : M A) : Prop :=
  forall w1 w2, same_world w1 w2 ->
    (m w1).1 = (m w2).1 /\ same_world (m w1).2 (m w2).2.

(** Player objects that differ at most in their position. *)
Definition same_identity (p q : Player.t) : Prop :=
  Player.name p = Player.name q /\
  Player.position_role p = Player.position_role q /\
  Player.interception_stat p = Player.interception_stat q.

(** What the corner-kick loops do to a player they move. *)
Definition placed_attacker (p : Player.t) : Prop :=
  Player.position_role p <> "GK"%string /\ in_box (Player.position p).

Definition placed_defender (p : Player.t) : Prop :=
  (Player.position_role p = "GK"%string /\ Player.position p = (104, 34)) \/
  (Player.position_role p <> "GK"%string /\ in_box (Player.position p)).

(** A change of world that keeps the generator's stream and every player's
    identity, and moves players only to positions satisfying [P]. *)
Definition repositions (P : Player.t -> Prop) (w w' : World) : Prop :=
  sample (np_random w') = sample (np_random w) /\
  Forall2 same_identity (objects w) (objects w') /\
  forall i p', objects w' !! i = Some p' -> objects w !! i = Some p' \/ P p'.

(** ** Example usage: sample teams *)

(* [Player(...)]: a new object, at a fresh address *)
Definition new_player (p : Player.t) : M addr := fun w =>
  (length (objects w),
   {| objects := objects w ++ [p]; np_random := np_random w |}).

(* [[body(x) for x in l]], in order *)
Fixpoint for_each_collect {A B : Type} (l : list A) (body : A -> M B)
    : M (list B) :=
  match l with
  | [] => mret []
  | x :: l' => y ← body x; ys ← for_each_collect l' body; mret (y :: ys)
  end.

(* the body of the loop of [create_sample_team] *)
Definition sample_field_player (name : string) (i : nat) : M addr :=
  '(role, x_pos) ←
    (if decide (i < 4)%nat then
       x_pos ← (if String.eqb name "Home" then np_random_uniform 15 30
                else np_random_uniform 75 90);
       mret ("DEF"%string, x_pos)
     else if decide (i < 7)%nat then
       x_pos ← (if String.eqb name "Home" then np_random_uniform 35 50
                else np_random_uniform 55 70);
       mret ("MF"%string, x_pos)
     else
       x_pos ← (if String.eqb name "Home" then np_random_uniform 55 70
                else np_random_uniform 35 50);
       mret ("FWD"%string, x_pos));
  y_pos ← np_random_uniform 10 58;
  interception_stat ← np_random_uniform 0.3 0.8;
  new_player {| Player.name := name +:+ "_P" +:+ pretty (i + 1)%nat;
                Player.position := (x_pos, y_pos);
                Player.position_role := role;
                Player.interception_stat := interception_stat |}.

Definition create_sample_team (name : string) (num_players : Z) : M Team.t :=
  gk ← new_player {| Player.name := name +:+ "_GK";
                     Player.position :=
                       (if String.eqb name "Home" then 5 else 100, 34);
                     Player.position_role := "GK";
                     Player.interception_stat := 0.5 |};
  field ← for_each_collect (seq 0 (Z.to_nat (num_players - 1)))
            (sample_field_player name);
  mret {| Team.name := name; Team.players := gk :: field |}.

(** ** Callers: a session with the simulator

    What the tests and the demonstration do with a simulator: run a step,
    reset it, or stage the ball by assigning [simulator.ball.position]. *)

Inductive Command : Type :=
  | Step (action : string) (target_pos : option Vec)
  | Reset
  | Stage (pos : Vec).

Fixpoint session (commands : list Command) (self : MatchSimulator.t)
    : M MatchSimulator.t :=
  match commands with
  | [] => mret self
  | Step action target_pos :: rest =>
      '(_, self) ← MatchSimulator.simulate_step action target_pos self;
      session rest self
  | Reset :: rest =>
      self ← MatchSimulator.reset self;
      session rest self
  | Stage pos :: rest =>
      session rest (MatchSimulator.set_ball_position pos self)
  end.

(** ** Two players a side from the tactical scenario of the demonstration *)

Definition tactical_objects : list Player.t :=
  [ {| Player.name := "GK_Ramsdale"; Player.position := (5, 34);
       Player.position_role := "GK"; Player.interception_stat := 0.5 |};
    {| Player.name := "MF_Odegaard"; Player.position := (50, 34);
       Player.position_role := "MF"; Player.interception_stat := 0.5 |};
    {| Player.name := "GK_Sanchez"; Player.position := (100, 34);
       Player.position_role := "GK"; Player.interception_stat := 0.5 |};
    {| Player.name := "MF_Enzo"; Player.position := (60, 34);
       Player.position_role := "MF"; Player.interception_stat := 0.5 |} ].

Definition tactical_home : Team.t :=
  {| Team.name := "Arsenal"; Team.players := [0%nat; 1%nat] |}.

Definition tactical_away : Team.t :=
  {| Team.name := "Chelsea"; Team.players := [2%nat; 3%nat] |}.

Definition tactical_world : World :=
  {| objects := tactical_objects; np_random := fixture_random |}.

(** ** A defender behind the goal line

    The fixture's two sides with a goalkeeper added at home and the away
    defender standing at (-1, 34), behind the home goal line; the ball is
    staged at (2, 34), as in the second set-piece test of the
    demonstration, which then passes to (-5, 34). *)

Definition turnover_objects : list Player.t :=
  [ {| Player.name := "Keeper"; Player.position := (5, 34);
       Player.position_role := "GK"; Player.interception_stat := 0.5 |};
    {| Player.name := "Attacker"; Player.position := (40, 34);
       Player.position_role := "FWD"; Player.interception_stat := 0.5 |};
    {| Player.name := "Defender"; Player.position := (-1, 34);
       Player.position_role := "DEF"; Player.interception_stat := 0.5 |} ].

Definition turnover_home : Team.t :=
  {| Team.name := "Home"; Team.players := [0%nat; 1%nat] |}.

Definition turnover_away : Team.t :=
  {| Team.name := "Away"; Team.players := [2%nat] |}.

Definition turnover_simulator : MatchSimulator.t :=
  MatchSimulator.set_ball_position (2, 34)
    (MatchSimulator.new turnover_home turnover_away).

Definition turnover_world : World :=
  {| objects := turnover_objects; np_random := fixture_random |}.

(** ** Vocabulary of the further properties *)

(** What an event log can be checked against: where the ball is, who has
    it, and the state of play. *)
Definition snapshot (self : MatchSimulator.t) : Vec * string * GameState :=
  (Ball.position (MatchSimulator.ball self),
   Team.name (MatchSimulator.possession_team self),
   SetPieceManager.game_state (MatchSimulator.set_piece_manager self)).

Definition snapshot_before (e : Event.t) : Vec * string * GameState :=
  (Event.ball_pos_before e, Event.possession_before e, Event.game_state e).

Definition snapshot_after (e : Event.t) : Vec * string * GameState :=
  (Event.ball_pos_after e, Event.possession_after e,
   default OPEN_PLAY (Event.set_piece e)).

(** A log whose events start where the previous one ended. *)
Fixpoint linked (start : Vec * string * GameState) (log : list Event.t)
    (finish : Vec * string * GameState) : Prop :=
  match log with
  | [] => start = finish
  | e :: log' =>
      snapshot_before e = start /\ linked (snapshot_after e) log' finish
  end.

(** A live player other than a goalkeeper: what a corner kick scrambles. *)
Definition is_outfield (w : World) (i : addr) : bool :=
  match objects w !! i with
  | Some p => negb (String.eqb (Player.position_role p) "GK")
  | None => false
  end.

(** The number of roster entries a corner kick scrambles. *)
Definition outfield_count (w : World) (roster : list addr) : nat :=
  length (List.filter (is_outfield w) roster).

(** A change of world that keeps the generator's stream and every player's
    identity: players may only have moved. *)
Definition keeps (w w' : World) : Prop := repositions (fun _ => True) w w'.

(** The number of events in the log after a session that started with [n]
    of them: a step adds one, a reset empties the log. *)
Fixpoint log_length (n : nat) (commands : list Command) : nat :=
  match commands with
  | [] => n
  | Step _ _ :: rest => log_length (S n) rest
  | Reset :: rest => log_length 0 rest
  | Stage _ :: rest => log_length n rest
  end.

(** A session that stages the ball only inside the pitch. *)
Definition stages_in_play (commands : list Command) : Prop :=
  forall pos, Stage pos ∈ commands -> in_play pos.

(** The roles of the field players of a sample team of [k] field players:
    four defenders, three midfielders, forwards for the rest. *)
Definition formation (k : nat) : list string :=
  replicate (min 4 k) "DEF"%string ++
  replicate (min 3 (k - 4)) "MF"%string ++
  replicate (k - 7) "FWD"%string.

(** * Geometry of the passing lane *)

Section Geometry.
Import PhysicsEngine.

Lemma np_clip_cases (t : R) :
  (t <= 0 /\ np_clip t 0 1 = 0) \/
  (0 <= t <= 1 /\ np_clip t 0 1 = t) \/
  (1 <= t /\ np_clip t 0 1 = 1).
Proof.
  unfold np_clip, Rmin, Rmax.
  repeat destruct (Rle_dec _ _); lra.
Qed.

Lemma np_clip_range (t : R) : 0 <= np_clip t 0 1 <= 1.
Proof. destruct (np_clip_cases t) as [[? ->]|[[? ->]|[? ->]]]; lra. Qed.

Lemma len_sq_zero (a b : Vec) : np_sum (vsquare (vsub b a)) = 0 <-> a = b.
Proof.
  destruct a as [ax ay], b as [bx by_]. unfold np_sum, vsquare, vsub. simpl.
  split.
  - intros H. destruct (Rplus_sqr_eq_0 (bx - ax) (by_ - ay)) as [Hx Hy].
    { unfold Rsqr. exact H. }
    f_equal; lra.
  - intros [= -> ->]. lra.
Qed.

Lemma euclid_nonneg (p q : Vec) : 0 <= euclid p q.
Proof. apply sqrt_pos. Qed.

Lemma distance_unfold_degenerate (p a b : Vec) :
  a = b -> get_distance_point_to_segment p a b = euclid p a.
Proof.
  intros Hab. unfold get_distance_point_to_segment.
  destruct (decide _) as [_|Hne].
  - reflexivity.
  - exfalso. apply Hne. by apply len_sq_zero.
Qed.

Lemma distance_unfold_proper (p a b : Vec) :
  a <> b ->
  get_distance_point_to_segment p a b =
  euclid p (along a b
    (np_clip (np_dot (vsub p a) (vsub b a) / np_sum (vsquare (vsub b a))) 0 1)).
Proof.
  intros Hab. unfold get_distance_point_to_segment.
  destruct (decide _) as [He|_].
  - exfalso. apply Hab. by apply len_sq_zero.
  - reflexivity.
Qed.

Lemma clip_minimises (p a b : Vec) (s : R) :
  a <> b -> 0 <= s <= 1 ->
  euclid p (along a b
    (np_clip (np_dot (vsub p a) (vsub b a) / np_sum (vsquare (vsub b a))) 0 1))
  <= euclid p (along a b s).
Proof.
  intros Hab Hs.
  assert (HL : np_sum (vsquare (vsub b a)) <> 0).
  { intros H. apply Hab. by apply len_sq_zero. }
  set (t0 := np_dot (vsub p a) (vsub b a) / np_sum (vsquare (vsub b a))).
  assert (Ht0 : t0 * np_sum (vsquare (vsub b a)) = np_dot (vsub p a) (vsub b a)).
  { unfold t0. field. exact HL. }
  clearbody t0.
  destruct p as [px py], a as [ax ay], b as [bx by_].
  unfold euclid, along, vadd, vscale, vsub, np_sum, vsquare, np_dot in *.
  simpl in *.
  apply sqrt_le_1_alt.
  set (L := (bx - ax) * (bx - ax) + (by_ - ay) * (by_ - ay)) in *.
  assert (HLpos : 0 < L).
  { assert (0 <= L).
    { pose proof (Rle_0_sqr (bx - ax)) as H1.
      pose proof (Rle_0_sqr (by_ - ay)) as H2.
      unfold Rsqr in H1, H2. unfold L. lra. }
    destruct (Rtotal_order 0 L) as [Hlt|[Heq|Hgt]]; [exact Hlt| |lra].
    exfalso. apply HL. symmetry. exact Heq. }
  assert (Hdiff : forall u v,
    ((px - (ax + u * (bx - ax))) * (px - (ax + u * (bx - ax))) +
     (py - (ay + u * (by_ - ay))) * (py - (ay + u * (by_ - ay)))) -
    ((px - (ax + v * (bx - ax))) * (px - (ax + v * (bx - ax))) +
     (py - (ay + v * (by_ - ay))) * (py - (ay + v * (by_ - ay))))
    = L * ((u - v) * (u + v - 2 * t0))).
  { intros u v.
    transitivity (L * (u - v) * (u + v)
                  - 2 * (u - v) * ((px - ax) * (bx - ax) + (py - ay) * (by_ - ay))).
    - unfold L. ring.
    - rewrite <- Ht0. ring. }
  assert (Hprod : forall u v, 0 <= (u - v) * (u + v - 2 * t0) ->
    (px - (ax + v * (bx - ax))) * (px - (ax + v * (bx - ax))) +
    (py - (ay + v * (by_ - ay))) * (py - (ay + v * (by_ - ay))) <=
    (px - (ax + u * (bx - ax))) * (px - (ax + u * (bx - ax))) +
    (py - (ay + u * (by_ - ay))) * (py - (ay + u * (by_ - ay)))).
  { intros u v Huv. specialize (Hdiff u v).
    assert (0 <= L * ((u - v) * (u + v - 2 * t0)))
      by (apply Rmult_le_pos; lra).
    lra. }
  destruct (np_clip_cases t0) as [[Hc ->]|[[Hc ->]|[Hc ->]]]; apply Hprod.
  - apply Rmult_le_pos; lra.
  - replace ((s - t0) * (s + t0 - 2 * t0)) with (Rsqr (s - t0))
      by (unfold Rsqr; ring).
    apply Rle_0_sqr.
  - replace ((s - 1) * (s + 1 - 2 * t0)) with ((1 - s) * (2 * t0 - s - 1))
      by ring.
    apply Rmult_le_pos; lra.
Qed.

Lemma along_same (a : Vec) (s : R) : along a a s = a.
Proof. destruct a. unfold along, vadd, vscale, vsub. simpl. f_equal; ring. Qed.

Lemma distance_attained (p a b : Vec) :
  exists t, 0 <= t <= 1 /\
    get_distance_point_to_segment p a b = euclid p (along a b t).
Proof.
  destruct (decide (a = b)) as [->|Hab].
  - exists 0. split; [lra|].
    rewrite distance_unfold_degenerate by reflexivity.
    by rewrite along_same.
  - eexists. split; [apply np_clip_range|].
    by apply distance_unfold_proper.
Qed.

Lemma distance_lower_bound (p a b : Vec) (s : R) :
  0 <= s <= 1 ->
  get_distance_point_to_segment p a b <= euclid p (along a b s).
Proof.
  intros Hs. destruct (decide (a = b)) as [->|Hab].
  - rewrite distance_unfold_degenerate by reflexivity.
    rewrite along_same. lra.
  - rewrite distance_unfold_proper by exact Hab.
    by apply clip_minimises.
Qed.

End Geometry.

(** * Interception scan and boundary classification *)

Section Interception.
Import PhysicsEngine.
Variables pass_start pass_end : Vec.
Variable radius : R.

Let dist (d : Player.t) : R :=
  get_distance_point_to_segment (Player.position d) pass_start pass_end.

(** The scan stops at the first defender inside the radius. *)
Lemma check_interception_hit (defenders : list Player.t) (d : Player.t) :
  check_interception pass_start pass_end defenders radius = (true, Some d) <->
  exists pre post, defenders = pre ++ d :: post /\
    Forall (fun q => ~ dist q < radius) pre /\ dist d < radius.
Proof.
  induction defenders as [|q rest IH]; simpl.
  - split; [discriminate|]. intros (pre & post & Heq & _).
    by destruct pre.
  - fold (dist q). destruct (decide (dist q < radius)) as [Hq|Hq].
    + split.
      * intros [= <-]. exists [], rest. auto.
      * intros (pre & post & Heq & Hpre & Hd).
        destruct pre as [|q' pre]; simplify_eq/=; [done|].
        by inversion Hpre.
    + rewrite IH. split.
      * intros (pre & post & -> & Hpre & Hd).
        exists (q :: pre), post. auto.
      * intros (pre & post & Heq & Hpre & Hd).
        destruct pre as [|q' pre]; simplify_eq/=; [done|].
        inversion Hpre; subst. eauto.
Qed.

Lemma check_interception_miss (defenders : list Player.t) :
  check_interception pass_start pass_end defenders radius = (false, None) <->
  Forall (fun q => ~ dist q < radius) defenders.
Proof.
  induction defenders as [|q rest IH]; simpl.
  - split; auto.
  - fold (dist q). destruct (decide (dist q < radius)) as [Hq|Hq].
    + split; [discriminate|]. by inversion 1.
    + rewrite IH. split; [auto|by inversion 1].
Qed.

(** The two shapes of the returned pair. *)
Lemma check_interception_shape (defenders : list Player.t) :
  check_interception pass_start pass_end defenders radius = (false, None) \/
  exists d, d ∈ defenders /\
    check_interception pass_start pass_end defenders radius = (true, Some d).
Proof.
  induction defenders as [|q rest IH]; simpl; [by left|].
  destruct (decide _).
  - right. exists q. split; [left|done].
  - destruct IH as [IH|(d & Hd & IH)]; [by left|].
    right. exists d. split; [by right|done].
Qed.

(** C2.  [check_interception] answers [true] exactly when some defender's
    distance to the pass segment is strictly below the radius (so a roster
    whose every distance is at least the radius, equality included, is not
    intercepted); when it answers [true] the returned player is the first
    such defender in roster order, and when it answers [false] no player is
    returned. *)
Theorem check_interception_first_in_roster (defenders : list Player.t) :
  let '(intercepted, interceptor) :=
    check_interception pass_start pass_end defenders radius in
  (intercepted = true <-> exists d, d ∈ defenders /\ dist d < radius) /\
  ((forall d, d ∈ defenders -> radius <= dist d) -> intercepted = false) /\
  (intercepted = true ->
     exists pre d post, defenders = pre ++ d :: post /\
       (forall q, q ∈ pre -> ~ dist q < radius) /\
       dist d < radius /\ interceptor = Some d) /\
  (intercepted = false -> interceptor = None).
Proof.
  destruct (check_interception_shape defenders) as [Hmiss|(d & Hin & Hhit)].
  - rewrite Hmiss. apply check_interception_miss in Hmiss.
    rewrite Forall_forall in Hmiss.
    split; [|split; [done|split; [discriminate|done]]].
    split; [discriminate|]. intros (d & Hd & Hlt). by destruct (Hmiss d Hd).
  - rewrite Hhit. apply check_interception_hit in Hhit.
    destruct Hhit as (pre & post & -> & Hpre & Hd).
    rewrite Forall_forall in Hpre.
    split; [|split; [|split; [|discriminate]]].
    + split; [|done]. intros _. exists d. split; [|done].
      apply elem_of_app. right. left.
    + intros Hall. specialize (Hall d Hin). lra.
    + intros _. exists pre, d, post. auto.
Qed.
End Interception.

Section Boundaries.
Import SetPieceManager.

Lemma check_boundaries_open (x y : R) (w : World) :
  in_play (x, y) -> check_boundaries x y w = (OPEN_PLAY, w).
Proof.
  intros Hin. unfold check_boundaries.
  destruct (decide _) as [_|Hn]; [done|]. by destruct Hn.
Qed.

Lemma check_boundaries_beyond (x y : R) (w : World) :
  105 < x ->
  check_boundaries x y w =
    ((if decide (sample (np_random w) (cursor (np_random w)) > 0.5)
      then CORNER else GOAL_KICK),
     (np_random_random w).2).
Proof.
  intros Hx. unfold check_boundaries.
  destruct (decide _) as [[[? ?] ?]|_]; [lra|].
  destruct (decide (x > 105)) as [_|Hn]; [|lra].
  reflexivity.
Qed.

Lemma check_boundaries_behind (x y : R) (w : World) :
  x < 0 -> check_boundaries x y w = (CORNER, w).
Proof.
  intros Hx. unfold check_boundaries.
  destruct (decide _) as [[[? ?] ?]|_]; [lra|].
  destruct (decide (x > 105)) as [?|_]; [lra|].
  destruct (decide (x < 0)) as [_|?]; [done|lra].
Qed.

Lemma check_boundaries_side (x y : R) (w : World) :
  0 <= x <= 105 -> y < 0 \/ 68 < y ->
  check_boundaries x y w = (THROW_IN, w).
Proof.
  intros Hx Hy. unfold check_boundaries.
  destruct (decide _) as [[? [? ?]]|_]; [lra|].
  destruct (decide (x > 105)) as [?|_]; [lra|].
  destruct (decide (x < 0)) as [?|_]; [lra|done].
Qed.

(** C3.  [check_boundaries x y] is [OPEN_PLAY] exactly when
    [0 <= x <= 105] and [0 <= y <= 68]; it is [CORNER] whenever [x < 0]; it
    is [THROW_IN] whenever [0 <= x <= 105] and [y] is outside [0, 68]; and
    when [x > 105] it is [CORNER] or [GOAL_KICK] according to one draw of
    the generator ([CORNER] when the draw exceeds 0.5).  Only that last case
    touches the generator. *)
Theorem check_boundaries_classification (x y : R) (w : World) :
  let '(state, w') := check_boundaries x y w in
  (state = OPEN_PLAY <-> (0 <= x <= 105 /\ 0 <= y <= 68)) /\
  (x < 0 -> state = CORNER) /\
  (0 <= x <= 105 -> y < 0 \/ 68 < y -> state = THROW_IN) /\
  (105 < x ->
     state = (if decide (sample (np_random w) (cursor (np_random w)) > 0.5)
              then CORNER else GOAL_KICK) /\
     (state = CORNER \/ state = GOAL_KICK) /\
     w' = (np_random_random w).2) /\
  (x <= 105 -> w' = w).
Proof.
  destruct (decide (in_play (x, y))) as [Hin|Hout].
  - rewrite check_boundaries_open by done.
    destruct Hin as [[? ?] [? ?]]; simpl in *.
    repeat split; try done; intros; lra.
  - assert (Hcases : 105 < x \/ x < 0 \/ (0 <= x <= 105 /\ (y < 0 \/ 68 < y))).
    { unfold in_play in Hout. simpl in Hout.
      destruct (Rlt_dec 105 x); [lra|]. destruct (Rlt_dec x 0); [lra|].
      right. right. split; [lra|].
      destruct (Rlt_dec y 0); [lra|]. destruct (Rlt_dec 68 y); [lra|].
      exfalso. apply Hout. lra. }
    destruct Hcases as [Hx|[Hx|[Hx Hy]]].
    + rewrite check_boundaries_beyond by done.
      split; [split; [destruct (decide _); discriminate|intros; lra]|].
      split; [intros; lra|]. split; [intros; lra|].
      split; [|intros; lra]. intros _.
      split; [done|]. split; [|done]. destruct (decide _); auto.
    + rewrite check_boundaries_behind by done.
      split; [split; [discriminate|intros; lra]|].
      split; [done|]. split; [intros; lra|]. split; [intros; lra|done].
    + rewrite check_boundaries_side by done.
      split; [split; [discriminate|intros; lra]|].
      split; [intros; lra|]. split; [done|]. split; [intros; lra|done].
Qed.
End Boundaries.

(** * Action handling *)

Section Step.
Import MatchSimulator.

Lemma run_bind {A B : Type} (m : M A) (k : A -> M B) (w : World) :
  (m ≫= k) w = k (m w).1 (m w).2.
Proof. unfold mbind, M_bind. by destruct (m w). Qed.

Lemma run_ret {A : Type} (x : A) (w : World) : (mret x : M A) w = (x, w).
Proof. reflexivity. Qed.

Lemma get_defending_team_world (self : t) (w : World) :
  (get_defending_team self w).2 = w.
Proof. reflexivity. Qed.

Lemma handle_action_pass (target : Vec) (self : t) (w : World) :
  handle_action "PASS" (Some target) self w =
  (let defending_team := (get_defending_team self w).1 in
   match PhysicsEngine.check_interception (Ball.position (ball self)) target
           (get_players defending_team w).1 PhysicsEngine.default_radius with
   | (true, Some defender) =>
       {| h_self := set_ball_position (Player.position defender)
                      (set_possession_team defending_team self);
          h_defending := defending_team;
          h_result := Some INTERCEPTED;
          h_interceptor := Some (Player.name defender) |}
   | _ =>
       {| h_self := set_ball_position target self;
          h_defending := defending_team;
          h_result := Some SUCCESS;
          h_interceptor := None |}
   end, w).
Proof.
  unfold handle_action. rewrite run_bind, String.eqb_refl, run_bind.
  rewrite get_defending_team_world. unfold get_players. simpl.
  destruct (PhysicsEngine.check_interception _ _ _ _) as [[] [d|]]; reflexivity.
Qed.

Lemma handle_action_world (action : string) (target_pos : option Vec)
    (self : t) (w : World) :
  (handle_action action target_pos self w).2 = w.
Proof.
  unfold handle_action. rewrite run_bind, get_defending_team_world.
  destruct (String.eqb action "PASS"), target_pos as [target|];
    try (destruct (String.eqb action "SHOOT"));
    try (destruct (String.eqb action "DRIBBLE")); try reflexivity.
  all: rewrite run_bind; simpl;
    destruct (PhysicsEngine.check_interception _ _ _ _) as [[] [d|]]; reflexivity.
Qed.

Lemma handle_action_defending (action : string) (target_pos : option Vec)
    (self : t) (w : World) :
  h_defending (handle_action action target_pos self w).1 =
  (get_defending_team self w).1.
Proof.
  unfold handle_action. rewrite run_bind, get_defending_team_world.
  destruct (String.eqb action "PASS"), target_pos as [target|];
    try (destruct (String.eqb action "SHOOT"));
    try (destruct (String.eqb action "DRIBBLE")); try reflexivity.
  all: rewrite run_bind; simpl;
    destruct (PhysicsEngine.check_interception _ _ _ _) as [[] [d|]]; reflexivity.
Qed.

(** An unknown action, or a known one without a target, handles nothing. *)
Lemma handle_action_noop (action : string) (target_pos : option Vec)
    (self : t) (w : World) :
  (action <> "PASS" /\ action <> "SHOOT" /\ action <> "DRIBBLE")%string \/
    target_pos = None ->
  handle_action action target_pos self w =
  ({| h_self := self;
      h_defending := (get_defending_team self w).1;
      h_result := None;
      h_interceptor := None |}, w).
Proof.
  intros Hnoop. unfold handle_action.
  rewrite run_bind, get_defending_team_world.
  destruct Hnoop as [(Hp & Hs & Hd)| ->].
  - apply String.eqb_neq in Hp, Hs, Hd. rewrite Hp, Hs, Hd. reflexivity.
  - destruct (String.eqb action "PASS"), (String.eqb action "SHOOT"),
      (String.eqb action "DRIBBLE"); reflexivity.
Qed.
End Step.

(** * World changes of a set piece *)

Section SetPieces.
Import SetPieceManager.

Lemma same_identity_refl (p : Player.t) : same_identity p p.
Proof. done. Qed.

Lemma same_identity_trans (p q r : Player.t) :
  same_identity p q -> same_identity q r -> same_identity p r.
Proof. intros (?&?&?) (?&?&?). repeat split; congruence. Qed.

Lemma same_identity_set_position (pos : Vec) (p : Player.t) :
  same_identity p (Player.set_position pos p).
Proof. done. Qed.

Lemma repositions_refl (P : Player.t -> Prop) (w : World) : repositions P w w.
Proof.
  split; [done|]. split; [|auto].
  apply Forall2_same_length_lookup. split; [done|].
  intros i p q Hp Hq. rewrite Hp in Hq. injection Hq as <-.
  apply same_identity_refl.
Qed.

Lemma repositions_trans (P : Player.t -> Prop) (w1 w2 w3 : World) :
  repositions P w1 w2 -> repositions P w2 w3 -> repositions P w1 w3.
Proof.
  intros (Hs1 & Hi1 & Hp1) (Hs2 & Hi2 & Hp2).
  split; [congruence|]. split.
  - eapply Forall2_trans; [|exact Hi1|exact Hi2].
    apply same_identity_trans.
  - intros i p' Hp'. destruct (Hp2 i p' Hp') as [H2|H2]; [|by right].
    by apply Hp1.
Qed.

Lemma repositions_weaken (P Q : Player.t -> Prop) (w w' : World) :
  (forall p, P p -> Q p) -> repositions P w w' -> repositions Q w w'.
Proof.
  intros HPQ (Hs & Hi & Hp). split; [done|]. split; [done|].
  intros i p' Hp'. destruct (Hp i p' Hp'); auto.
Qed.

Lemma repositions_length (P : Player.t -> Prop) (w w' : World) :
  repositions P w w' -> length (objects w') = length (objects w).
Proof. intros (_ & Hi & _). symmetry. by eapply Forall2_length. Qed.

Lemma repositions_unit_interval (P : Player.t -> Prop) (w w' : World) :
  repositions P w w' ->
  unit_interval (np_random w) -> unit_interval (np_random w').
Proof. intros (Hs & _) Hu n. rewrite Hs. apply Hu. Qed.

(** One draw leaves the objects alone. *)
Lemma np_random_random_repositions (P : Player.t -> Prop) (w : World) :
  repositions P w (np_random_random w).2.
Proof.
  split; [done|]. split; [|auto]. simpl.
  apply Forall2_same_length_lookup. split; [done|].
  intros i p q Hp Hq. rewrite Hp in Hq. by injection Hq as <-.
Qed.

Lemma np_random_uniform_world (low high : R) (w : World) :
  (np_random_uniform low high w).2 = (np_random_random w).2.
Proof. reflexivity. Qed.

Lemma np_random_uniform_range (low high : R) (w : World) :
  unit_interval (np_random w) -> low <= high ->
  low <= (np_random_uniform low high w).1 <= high.
Proof.
  intros Hu Hle. unfold np_random_uniform. rewrite run_bind. simpl.
  destruct (Hu (cursor (np_random w))) as [H0 H1]. nra.
Qed.

(** Moving one player to a position that satisfies [P]. *)
Lemma set_player_position_repositions (P : Player.t -> Prop)
    (i : addr) (pos : Vec) (w : World) :
  (forall p, objects w !! i = Some p -> P (Player.set_position pos p)) ->
  repositions P w (set_player_position i pos w).2.
Proof.
  intros HP. split; [done|]. split; simpl.
  - apply Forall2_same_length_lookup. split; [by rewrite length_alter|].
    intros j p q Hp Hq. destruct (decide (i = j)) as [->|Hne].
    + rewrite list_lookup_alter_eq, Hp in Hq. injection Hq as <-.
      apply same_identity_set_position.
    + rewrite list_lookup_alter_ne, Hp in Hq by done. by injection Hq as <-.
  - intros j p' Hp'. destruct (decide (i = j)) as [->|Hne].
    + rewrite list_lookup_alter_eq in Hp'.
      destruct (objects w !! j) as [p|] eqn:Hp; [|done].
      injection Hp' as <-. right. by apply HP.
    + rewrite list_lookup_alter_ne in Hp' by done. by left.
Qed.

Lemma scramble_in_box (w : World) :
  unit_interval (np_random w) ->
  in_box ((np_random_uniform 95 104 w).1,
          (np_random_uniform 20 48 (np_random_uniform 95 104 w).2).1).
Proof.
  intros Hu. split.
  - apply (np_random_uniform_range 95 104 w Hu). lra.
  - apply (np_random_uniform_range 20 48 (np_random_uniform 95 104 w).2);
      [|lra].
    intros n. apply Hu.
Qed.
End SetPieces.

(** * The corner-kick loops *)

Section Loops.
Import SetPieceManager.

Lemma placed_attacker_defender (p : Player.t) :
  placed_attacker p -> placed_defender p.
Proof. intros H. by right. Qed.

Lemma place_attacker_repositions (i : addr) (w : World) :
  unit_interval (np_random w) ->
  repositions placed_attacker w (place_attacker i w).2.
Proof.
  intros Hu. unfold place_attacker. rewrite run_bind. unfold get_player.
  simpl fst. simpl snd.
  destruct (objects w !! i) as [p|] eqn:Hp; [|apply repositions_refl].
  destruct (decide _) as [Hrole|_]; [|apply repositions_refl].
  rewrite !run_bind.
  eapply repositions_trans; [apply np_random_random_repositions|].
  rewrite np_random_uniform_world.
  eapply repositions_trans; [apply np_random_random_repositions|].
  rewrite np_random_uniform_world.
  apply set_player_position_repositions.
  intros q Hq. simpl in Hq. rewrite Hp in Hq. injection Hq as <-.
  split; [exact Hrole|by apply scramble_in_box].
Qed.

Lemma np_random_uniform_objects (low high : R) (w : World) :
  objects (np_random_uniform low high w).2 = objects w.
Proof. reflexivity. Qed.

Lemma set_player_position_at (i : addr) (pos : Vec) (w : World) :
  objects (set_player_position i pos w).2 !! i =
  Player.set_position pos <$> objects w !! i.
Proof. apply list_lookup_alter_eq. Qed.

Lemma place_attacker_at (i : addr) (w : World) (p' : Player.t) :
  unit_interval (np_random w) ->
  objects (place_attacker i w).2 !! i = Some p' ->
  Player.position_role p' <> "GK"%string -> in_box (Player.position p').
Proof.
  intros Hu. unfold place_attacker. rewrite run_bind. unfold get_player.
  simpl fst. simpl snd.
  destruct (objects w !! i) as [p|] eqn:Hp; [|simpl; congruence].
  destruct (decide _) as [Hrole|Hrole].
  - rewrite !run_bind, set_player_position_at.
    rewrite !np_random_uniform_objects, Hp.
    intros [= <-] _. by apply scramble_in_box.
  - simpl. rewrite Hp. intros [= <-] Hne. by destruct Hrole.
Qed.

Lemma place_defender_repositions (i : addr) (w : World) :
  unit_interval (np_random w) ->
  repositions placed_defender w (place_defender i w).2.
Proof.
  intros Hu. unfold place_defender. rewrite run_bind. unfold get_player.
  simpl fst. simpl snd.
  destruct (objects w !! i) as [p|] eqn:Hp; [|apply repositions_refl].
  destruct (decide _) as [Hrole|Hrole].
  - apply set_player_position_repositions.
    intros q Hq. rewrite Hp in Hq. injection Hq as <-. by left.
  - rewrite !run_bind.
    eapply repositions_trans; [apply np_random_random_repositions|].
    rewrite np_random_uniform_world.
    eapply repositions_trans; [apply np_random_random_repositions|].
    rewrite np_random_uniform_world.
    apply set_player_position_repositions.
    intros q Hq. simpl in Hq. rewrite Hp in Hq. injection Hq as <-.
    right. split; [exact Hrole|by apply scramble_in_box].
Qed.

Lemma place_defender_at (i : addr) (w : World) (p' : Player.t) :
  unit_interval (np_random w) ->
  objects (place_defender i w).2 !! i = Some p' -> placed_defender p'.
Proof.
  intros Hu. unfold place_defender. rewrite run_bind. unfold get_player.
  simpl fst. simpl snd.
  destruct (objects w !! i) as [p|] eqn:Hp; [|simpl; congruence].
  destruct (decide _) as [Hrole|Hrole].
  - rewrite set_player_position_at, Hp.
    intros [= <-]. by left.
  - rewrite !run_bind, set_player_position_at.
    rewrite !np_random_uniform_objects, Hp.
    intros [= <-]. right. split; [exact Hrole|by apply scramble_in_box].
Qed.

(** A loop whose body repositions players under [P], and leaves the player
    it visits in a state [Q] that [P] implies, leaves every visited player
    in state [Q]. *)
Lemma for_each_repositions (P Q : Player.t -> Prop) (body : addr -> M unit)
    (l : list addr) (w : World) :
  (forall p, P p -> Q p) ->
  (forall i w, unit_interval (np_random w) ->
     repositions P w (body i w).2) ->
  (forall i w p', unit_interval (np_random w) ->
     objects (body i w).2 !! i = Some p' -> Q p') ->
  unit_interval (np_random w) ->
  repositions P w (for_each l body w).2 /\
  forall i p', i ∈ l -> objects (for_each l body w).2 !! i = Some p' -> Q p'.
Proof.
  intros HPQ Hbody Hat. revert w.
  induction l as [|x l IH]; intros w Hu; simpl.
  - split; [apply repositions_refl|]. intros i p' Hi. by inversion Hi.
  - rewrite run_bind.
    pose proof (Hbody x w Hu) as Hstep.
    pose proof (repositions_unit_interval _ _ _ Hstep Hu) as Hu'.
    destruct (IH _ Hu') as [Hrest Hvisited].
    split; [by eapply repositions_trans|].
    intros i p' Hi Hp'. apply elem_of_cons in Hi as [->|Hi]; [|by eauto].
    destruct Hrest as (_ & _ & Hkeep).
    destruct (Hkeep x p' Hp') as [Hold|Hnew]; [by eauto|by apply HPQ].
Qed.
End Loops.

(** * Set-piece resolution and the shape of a step *)

Section Restart.
Import SetPieceManager MatchSimulator.

Lemma resolve_set_piece_corner (attacking defending : Team.t) (w : World) :
  unit_interval (np_random w) ->
  let '(pos, w') := resolve_set_piece CORNER attacking defending w in
  pos = (105, if decide (sample (np_random w) (cursor (np_random w)) < 0.5)
              then 0 else 68) /\
  repositions placed_defender w w' /\
  (forall i p', i ∈ Team.players defending ->
     objects w' !! i = Some p' -> placed_defender p') /\
  (forall i p', i ∈ Team.players attacking ->
     objects w' !! i = Some p' ->
     Player.position_role p' <> "GK"%string -> in_box (Player.position p')).
Proof.
  intros Hu. unfold resolve_set_piece. rewrite !run_bind.
  set (w1 := (np_random_random w).2).
  assert (Hw1 : repositions placed_defender w w1)
    by apply np_random_random_repositions.
  assert (Hu1 : unit_interval (np_random w1))
    by (eapply repositions_unit_interval; eauto).
  destruct (for_each_repositions placed_attacker
              (fun p => Player.position_role p <> "GK"%string ->
                        in_box (Player.position p))
              place_attacker (Team.players attacking) w1) as [Hatt Hatt_at];
    [by intros p [_ ?] _|apply place_attacker_repositions
    |intros i w0 p'; apply place_attacker_at|exact Hu1|].
  set (w2 := (for_each (Team.players attacking) place_attacker w1).2) in *.
  assert (Hu2 : unit_interval (np_random w2))
    by (eapply repositions_unit_interval; eauto).
  destruct (for_each_repositions placed_defender placed_defender
              place_defender (Team.players defending) w2) as [Hdef Hdef_at];
    [done|apply place_defender_repositions
    |intros i w0 p'; apply place_defender_at|exact Hu2|].
  set (w3 := (for_each (Team.players defending) place_defender w2).2) in *.
  rewrite run_ret.
  split; [reflexivity|]. split; [|split; [exact Hdef_at|]].
  - eapply repositions_trans; [exact Hw1|].
    eapply repositions_trans; [|exact Hdef].
    eapply repositions_weaken; [apply placed_attacker_defender|exact Hatt].
  - intros i p' Hi Hp' Hrole.
    destruct Hdef as (_ & _ & Hkeep).
    destruct (Hkeep i p' Hp') as [Hold|[[Hgk _]|[_ Hbox]]];
      [by eapply Hatt_at|done|done].
Qed.

Lemma boundary_check_unfold (self : t) (defending_team : Team.t) (w : World) :
  boundary_check self defending_team w =
  (let r := check_boundaries (Ball.position (ball self)).1
              (Ball.position (ball self)).2 w in
   match r.1 with
   | OPEN_PLAY => ((None, set_game_state OPEN_PLAY self), r.2)
   | new_state =>
       let s := resolve_set_piece new_state (possession_team self)
                  defending_team r.2 in
       ((Some new_state,
         set_game_state new_state (set_ball_position s.1 self)), s.2)
   end).
Proof.
  unfold boundary_check. rewrite run_bind.
  destruct (check_boundaries _ _ w) as [[] w1]; cbn [fst snd];
    try reflexivity; by rewrite run_bind.
Qed.

Lemma boundary_check_open (self : t) (defending_team : Team.t) (w : World) :
  in_play (Ball.position (ball self)) ->
  boundary_check self defending_team w =
  ((None, set_game_state OPEN_PLAY self), w).
Proof.
  intros Hin. rewrite boundary_check_unfold.
  destruct (Ball.position (ball self)) as [x y].
  by rewrite check_boundaries_open.
Qed.

Lemma simulate_step_unfold (action : string) (target_pos : option Vec)
    (self : t) (w : World) :
  simulate_step action target_pos self w =
  (let h := (handle_action action target_pos self w).1 in
   let r := boundary_check (h_self h) (h_defending h) w in
   let event :=
     {| Event.action := action;
        Event.ball_pos_before := Ball.position (ball self);
        Event.possession_before := Team.name (possession_team self);
        Event.game_state := SetPieceManager.game_state (set_piece_manager self);
        Event.result := h_result h;
        Event.interceptor := h_interceptor h;
        Event.set_piece := r.1.1;
        Event.ball_pos_after := Ball.position (ball r.1.2);
        Event.possession_after := Team.name (possession_team r.1.2) |} in
   ((event, append_event event r.1.2), r.2)).
Proof.
  unfold simulate_step. rewrite !run_bind, handle_action_world.
  destruct (boundary_check _ _ w) as [[sp self'] w']. reflexivity.
Qed.
End Restart.

(** * Where the boundary check leaves the ball *)

Section BallPlacement.
Import SetPieceManager MatchSimulator.

(** Where the boundary check leaves the ball, state by state. *)
Lemma boundary_check_ball (self : t) (defending_team : Team.t) (w : World) :
  let c := check_boundaries (Ball.position (ball self)).1
             (Ball.position (ball self)).2 w in
  let r := boundary_check self defending_team w in
  Ball.position (ball r.1.2) =
    match c.1 with
    | OPEN_PLAY => Ball.position (ball self)
    | CORNER =>
        (105, if decide (sample (np_random c.2) (cursor (np_random c.2)) < 0.5)
              then 0 else 68)
    | GOAL_KICK => (5, 34)
    | THROW_IN => (0, 0)
    end /\
  r.1.1 = match c.1 with OPEN_PLAY => None | s => Some s end /\
  SetPieceManager.game_state (set_piece_manager r.1.2) = c.1 /\
  possession_team r.1.2 = possession_team self /\
  events r.1.2 = events self /\
  home_team r.1.2 = home_team self /\ away_team r.1.2 = away_team self /\
  (c.1 = OPEN_PLAY -> r.2 = c.2).
Proof.
  intros c r. unfold r. rewrite boundary_check_unfold. fold c.
  destruct c as [[] w1]; cbn [fst snd]; try done.
  unfold resolve_set_piece. rewrite !run_bind, run_ret. done.
Qed.

Lemma check_boundaries_open_inv (x y : R) (w : World) :
  (check_boundaries x y w).1 = OPEN_PLAY -> in_play (x, y).
Proof.
  unfold check_boundaries.
  destruct (decide _) as [Hin|_]; [done|].
  destruct (decide (x > 105)).
  { rewrite run_bind, run_ret. cbn [fst]. by destruct (decide _). }
  by destruct (decide (x < 0)).
Qed.

Lemma boundary_check_in_play (self : t) (defending_team : Team.t) (w : World) :
  in_play (Ball.position (ball (boundary_check self defending_team w).1.2)).
Proof.
  destruct (boundary_check_ball self defending_team w) as (-> & _).
  pose proof (check_boundaries_open_inv
                (Ball.position (ball self)).1 (Ball.position (ball self)).2 w)
    as Hc.
  destruct (check_boundaries _ _ w) as [[] w1]; cbn [fst snd] in *.
  - destruct (Ball.position (ball self)). by apply Hc.
  - unfold in_play. cbn [fst snd]. destruct (decide _); lra.
  - unfold in_play. cbn [fst snd]. lra.
  - unfold in_play. cbn [fst snd]. lra.
Qed.
End BallPlacement.

(** * Set pieces, no-op steps and reset *)

Section Steps.
Import SetPieceManager MatchSimulator.

Lemma check_boundaries_repositions (P : Player.t -> Prop) (x y : R)
    (w : World) :
  repositions P w (check_boundaries x y w).2.
Proof.
  unfold check_boundaries.
  repeat (destruct (decide _)); try apply repositions_refl.
  rewrite run_bind, run_ret. apply np_random_random_repositions.
Qed.

Lemma check_boundaries_objects (x y : R) (w : World) :
  objects (check_boundaries x y w).2 = objects w.
Proof.
  unfold check_boundaries. by repeat (destruct (decide _)).
Qed.

(** X24.  The restart of a step whose boundary check yields a set piece.
    [resolve_set_piece] receives as attacking team [possession_team] as the
    action left it, and as defending team the [defending_team] computed
    before the action.  For [CORNER] the ball ends at (105, 0) or (105, 68),
    every goalkeeper of that defending roster is at (104, 34), every
    non-goalkeeper of either roster is inside the box [95, 104] x [20, 48],
    and players keep their identity; for [GOAL_KICK] the ball ends at
    (5, 34) and no player moves.  In both cases [game_state] becomes the new
    state and the event's [set_piece] entry carries it.  The draws of the
    generator are assumed to lie in the unit interval. *)
Theorem set_piece_restart (action : string) (target_pos : option Vec)
    (self : t) (w : World) :
  unit_interval (np_random w) ->
  let '(h, w1) := handle_action action target_pos self w in
  let new_state :=
    (check_boundaries (Ball.position (ball (h_self h))).1
       (Ball.position (ball (h_self h))).2 w1).1 in
  let '((event, self'), w') := simulate_step action target_pos self w in
  (new_state = CORNER ->
     (Ball.position (ball self') = (105, 0) \/
      Ball.position (ball self') = (105, 68)) /\
     (forall i p, i ∈ Team.players (h_defending h) ->
        objects w' !! i = Some p ->
        Player.position_role p = "GK"%string ->
        Player.position p = (104, 34)) /\
     (forall i p,
        i ∈ Team.players (possession_team (h_self h)) \/
        i ∈ Team.players (h_defending h) ->
        objects w' !! i = Some p ->
        Player.position_role p <> "GK"%string ->
        in_box (Player.position p)) /\
     Forall2 same_identity (objects w) (objects w') /\
     SetPieceManager.game_state (set_piece_manager self') = CORNER /\
     Event.set_piece event = Some CORNER /\
     Event.ball_pos_after event = Ball.position (ball self')) /\
  (new_state = GOAL_KICK ->
     Ball.position (ball self') = (5, 34) /\
     objects w' = objects w /\
     SetPieceManager.game_state (set_piece_manager self') = GOAL_KICK /\
     Event.set_piece event = Some GOAL_KICK /\
     Event.ball_pos_after event = Ball.position (ball self')).
Proof.
  intros Hu.
  pose proof (handle_action_world action target_pos self w) as Hw1.
  rewrite simulate_step_unfold.
  destruct (handle_action action target_pos self w) as [h w1].
  cbn [fst snd] in *. subst w1. cbv zeta.
  rewrite boundary_check_unfold.
  set (c := check_boundaries _ _ w).
  assert (Hc : repositions placed_defender w c.2)
    by apply check_boundaries_repositions.
  assert (Hobj : objects c.2 = objects w)
    by apply check_boundaries_objects.
  destruct c as [new_state w1]. cbn [fst snd] in *. split.
  - intros ->. cbn [fst snd].
    pose proof (resolve_set_piece_corner (possession_team (h_self h))
                  (h_defending h) w1
                  (repositions_unit_interval _ _ _ Hc Hu)) as Hr.
    destruct (resolve_set_piece CORNER _ _ w1) as [pos w2].
    destruct Hr as (-> & Hmove & Hdef & Hatt). cbn [fst snd].
    split; [destruct (decide _); auto|].
    split.
    { intros i p Hi Hp Hgk.
      destruct (Hdef i p Hi Hp) as [[_ ?]|[? _]]; done. }
    split.
    { intros i p [Hi|Hi] Hp Hrole; [by eapply Hatt|].
      destruct (Hdef i p Hi Hp) as [[? _]|[_ ?]]; done. }
    split; [|done].
    destruct (repositions_trans _ _ _ _ Hc Hmove) as (_ & ? & _). done.
  - intros ->. cbn [fst snd]. unfold resolve_set_piece. rewrite run_ret.
    cbn [fst snd]. done.
Qed.

Lemma handle_action_frame (action : string) (target_pos : option Vec)
    (self : t) (w : World) :
  let h := (handle_action action target_pos self w).1 in
  home_team (h_self h) = home_team self /\
  away_team (h_self h) = away_team self /\
  set_piece_manager (h_self h) = set_piece_manager self /\
  events (h_self h) = events self.
Proof.
  unfold handle_action. rewrite run_bind, get_defending_team_world.
  destruct (String.eqb action "PASS"), target_pos as [target|];
    try (destruct (String.eqb action "SHOOT"));
    try (destruct (String.eqb action "DRIBBLE")); try done.
  all: rewrite run_bind; cbn [fst snd get_players];
    destruct (PhysicsEngine.check_interception _ _ _ _) as [[] [d|]]; done.
Qed.

(** What one step leaves behind, in terms of its two halves. *)
Lemma simulate_step_facts (action : string) (target_pos : option Vec)
    (self : t) (w : World) :
  let h := (handle_action action target_pos self w).1 in
  let c := check_boundaries (Ball.position (ball (h_self h))).1
             (Ball.position (ball (h_self h))).2 w in
  let r := simulate_step action target_pos self w in
  Event.result r.1.1 = h_result h /\
  Event.interceptor r.1.1 = h_interceptor h /\
  Event.set_piece r.1.1 = match c.1 with OPEN_PLAY => None | s => Some s end /\
  Event.ball_pos_after r.1.1 = Ball.position (ball r.1.2) /\
  Ball.position (ball r.1.2) =
    match c.1 with
    | OPEN_PLAY => Ball.position (ball (h_self h))
    | CORNER =>
        (105, if decide (sample (np_random c.2) (cursor (np_random c.2)) < 0.5)
              then 0 else 68)
    | GOAL_KICK => (5, 34)
    | THROW_IN => (0, 0)
    end /\
  SetPieceManager.game_state (set_piece_manager r.1.2) = c.1 /\
  possession_team r.1.2 = possession_team (h_self h) /\
  events r.1.2 = events self ++ [r.1.1] /\
  (c.1 = OPEN_PLAY -> r.2 = c.2).
Proof.
  intros h c r. unfold r. rewrite simulate_step_unfold. fold h. cbv zeta.
  destruct (boundary_check_ball (h_self h) (h_defending h) w)
    as (Hball & Hsp & Hgs & Hposs & Hev & _ & _ & Hopen).
  fold c in Hball, Hsp, Hgs, Hopen.
  destruct (handle_action_frame action target_pos self w) as (_ & _ & _ & Hev').
  fold h in Hev'. cbn [fst snd Event.result Event.interceptor Event.set_piece
    Event.ball_pos_after append_event events ball possession_team
    set_piece_manager].
  repeat split; try done.
  by rewrite Hev, Hev'.
Qed.

(** After any step the ball lies inside the pitch. *)
Lemma simulate_step_in_play (action : string) (target_pos : option Vec)
    (self : t) (w : World) :
  in_play (Ball.position (ball (simulate_step action target_pos self w).1.2)).
Proof.
  rewrite simulate_step_unfold. cbn [fst snd append_event ball].
  apply boundary_check_in_play.
Qed.

Lemma new_in_play (home_team away_team : Team.t) :
  in_play (Ball.position (ball (new home_team away_team))).
Proof. unfold in_play. cbn. lra. Qed.

Lemma reset_in_play (self : t) (w : World) :
  in_play (Ball.position (ball (reset self w).1)).
Proof. unfold in_play. cbn. lra. Qed.

(** C8, as amended.  A step whose action is none of PASS, SHOOT, DRIBBLE,
    or whose target is missing, appends an event without [result] and
    without [interceptor] and keeps possession; if the ball lay inside the
    pitch before the step, the ball does not move, no set piece is recorded
    and the world is untouched. *)
Theorem noop_step (action : string) (target_pos : option Vec)
    (self : t) (w : World) :
  (action <> "PASS" /\ action <> "SHOOT" /\ action <> "DRIBBLE")%string \/
    target_pos = None ->
  let '((event, self'), w') := simulate_step action target_pos self w in
  Event.result event = None /\
  Event.interceptor event = None /\
  events self' = events self ++ [event] /\
  possession_team self' = possession_team self /\
  (in_play (Ball.position (ball self)) ->
     Ball.position (ball self') = Ball.position (ball self) /\
     Event.ball_pos_after event = Event.ball_pos_before event /\
     Event.set_piece event = None /\
     w' = w).
Proof.
  intros Hnoop.
  pose proof (simulate_step_facts action target_pos self w) as Hf.
  cbv zeta in Hf. rewrite (handle_action_noop _ _ _ _ Hnoop) in Hf.
  cbn [fst snd h_self h_result h_interceptor] in Hf.
  pose proof (simulate_step_unfold action target_pos self w) as Hbefore.
  apply (f_equal (fun r => Event.ball_pos_before r.1.1)) in Hbefore.
  cbn [fst snd Event.ball_pos_before] in Hbefore.
  destruct (simulate_step action target_pos self w) as [[event self'] w'].
  cbn [fst snd] in Hf, Hbefore.
  destruct Hf as (Hres & Hint & Hsp & Hafter & Hball & _ & Hposs & Hev & Hw).
  split; [done|]. split; [done|]. split; [done|]. split; [done|].
  intros Hin. destruct (Ball.position (ball self)) as [x y] eqn:Hpos.
  cbn [fst snd] in *.
  rewrite (check_boundaries_open x y w Hin) in *. cbn [fst snd] in *.
  split; [done|]. split; [congruence|]. split; [done|]. by apply Hw.
Qed.

(** C9.  After [reset], from any simulator state, the ball is at the centre
    (52.5, 34), the home team is in possession, [game_state] is [OPEN_PLAY],
    [get_training_data] is empty, both teams are the same and the world,
    hence the position of every player, is unchanged. *)
Theorem reset_restores (self : t) (w : World) :
  let '(self', w') := reset self w in
  Ball.position (ball self') = (52.5, 34) /\
  possession_team self' = home_team self /\
  SetPieceManager.game_state (set_piece_manager self') = OPEN_PLAY /\
  get_training_data self' = [] /\
  home_team self' = home_team self /\
  away_team self' = away_team self /\
  w' = w.
Proof. unfold reset. rewrite run_ret. done. Qed.
End Steps.

(** * Passes *)

Section Pass.
Import PhysicsEngine SetPieceManager MatchSimulator.

(** C1, as amended.  A PASS with a target has exactly one of two outcomes,
    decided by [check_interception] on the defending roster.  Success: the
    result is [SUCCESS], possession is kept, and the ball ends at the target
    provided the target lies inside the pitch.  Turnover: the result is
    [INTERCEPTED], the event names the interceptor, possession goes to the
    previously defending team, and the ball ends at the interceptor's
    position provided that position lies inside the pitch. *)
Theorem pass_outcome (target : Vec) (self : t) (w : World) :
  let defending_team := (get_defending_team self w).1 in
  let defenders := (get_players defending_team w).1 in
  let '(intercepted, defender) :=
    check_interception (Ball.position (ball self)) target defenders
      default_radius in
  let '((event, self'), w') := simulate_step "PASS" (Some target) self w in
  let success :=
    Event.result event = Some SUCCESS /\
    Event.interceptor event = None /\
    possession_team self' = possession_team self /\
    (in_play target -> Ball.position (ball self') = target) in
  let turnover :=
    exists d, defender = Some d /\ d ∈ defenders /\
      Event.result event = Some INTERCEPTED /\
      Event.interceptor event = Some (Player.name d) /\
      possession_team self' = defending_team /\
      (in_play (Player.position d) ->
         Ball.position (ball self') = Player.position d /\ w' = w) in
  (if intercepted then turnover else success) /\
  (success \/ turnover) /\ ~ (success /\ turnover).
Proof.
  intros defending_team defenders.
  pose proof (simulate_step_facts "PASS" (Some target) self w) as Hf.
  cbv zeta in Hf. rewrite handle_action_pass in Hf. cbv zeta in Hf.
  fold defending_team in Hf. fold defenders in Hf.
  destruct (check_interception_shape (Ball.position (ball self)) target
              default_radius defenders) as [Hmiss|(d & Hd & Hhit)].
  - rewrite Hmiss in *.
    cbn [fst snd h_self h_result h_interceptor set_ball_position ball
         possession_team Ball.position] in Hf.
    destruct (simulate_step "PASS" (Some target) self w)
      as [[event self'] w']. cbn [fst snd] in Hf.
    destruct Hf as (Hres & Hint & _ & _ & Hball & _ & Hposs & _ & _).
    assert (Hsuccess : Event.result event = Some SUCCESS /\
      Event.interceptor event = None /\
      possession_team self' = possession_team self /\
      (in_play target -> Ball.position (ball self') = target)).
    { split; [done|]. split; [done|]. split; [done|]. intros Hin.
      rewrite Hball. destruct target as [x y]. cbn [fst snd].
      by rewrite check_boundaries_open. }
    split; [exact Hsuccess|]. split; [by left|].
    intros [_ (d & _ & _ & Hres' & _)]. congruence.
  - rewrite Hhit in *.
    cbn [fst snd h_self h_result h_interceptor set_ball_position ball
         set_possession_team possession_team Ball.position] in Hf.
    destruct (simulate_step "PASS" (Some target) self w)
      as [[event self'] w']. cbn [fst snd] in Hf.
    destruct Hf as (Hres & Hint & _ & _ & Hball & _ & Hposs & _ & Hw).
    assert (Hturnover : exists d0, Some d = Some d0 /\ d0 ∈ defenders /\
      Event.result event = Some INTERCEPTED /\
      Event.interceptor event = Some (Player.name d0) /\
      possession_team self' = defending_team /\
      (in_play (Player.position d0) ->
         Ball.position (ball self') = Player.position d0 /\ w' = w)).
    { exists d. do 5 (split; [done|]). intros Hin.
      destruct (Player.position d) as [x y]. cbn [fst snd] in *.
      rewrite check_boundaries_open in * by done. cbn [fst snd] in *.
      split; [done|by apply Hw]. }
    split; [exact Hturnover|]. split; [by right|].
    intros [(Hres' & _) _]. congruence.
Qed.

(** C10, as amended.  [check_interception] on an empty list of defenders
    returns [(false, None)]; so a PASS against a defending team with no
    players takes the branch that does not look at the defender: the step
    returns its event and appends it to the log, the result is [SUCCESS]
    with no interceptor, and possession is kept.  The ball ends at the
    target provided the target lies inside the pitch; then no set piece is
    recorded and neither players nor generator change. *)
Theorem pass_against_empty_roster (target : Vec) (self : t) (w : World) :
  let defending_team := (get_defending_team self w).1 in
  Team.players defending_team = [] ->
  (forall pass_start pass_end radius,
     check_interception pass_start pass_end [] radius = (false, None)) /\
  check_interception (Ball.position (ball self)) target
    (get_players defending_team w).1 default_radius = (false, None) /\
  let '((event, self'), w') := simulate_step "PASS" (Some target) self w in
  Event.result event = Some SUCCESS /\
  Event.interceptor event = None /\
  possession_team self' = possession_team self /\
  events self' = events self ++ [event] /\
  Event.ball_pos_after event = Ball.position (ball self') /\
  (in_play target ->
     Ball.position (ball self') = target /\
     Event.set_piece event = None /\
     SetPieceManager.game_state (set_piece_manager self') = OPEN_PLAY /\
     w' = w).
Proof.
  intros defending_team Hempty. split; [done|].
  assert (Hnone : (get_players defending_team w).1 = [])
    by (unfold get_players; by rewrite Hempty).
  split; [by rewrite Hnone|].
  pose proof (simulate_step_facts "PASS" (Some target) self w) as Hf.
  cbv zeta in Hf. rewrite handle_action_pass in Hf. cbv zeta in Hf.
  fold defending_team in Hf. rewrite Hnone in Hf.
  cbn [fst snd check_interception h_self h_result
       h_interceptor set_ball_position ball possession_team
       Ball.position] in Hf.
  destruct (simulate_step "PASS" (Some target) self w) as [[event self'] w'].
  cbn [fst snd] in Hf.
  destruct Hf as (Hres & Hint & Hsp & Hafter & Hball & Hgs & Hposs & Hev & Hw).
  do 5 (split; [done|]). intros Hin.
  destruct target as [x y]. cbn [fst snd] in *.
  rewrite check_boundaries_open in * by done. cbn [fst snd] in *.
  split; [done|]. split; [done|]. split; [done|]. by apply Hw.
Qed.
End Pass.

(** * Reproducibility of the event log *)

Section Determinism.
Import PhysicsEngine SetPieceManager MatchSimulator.

Lemma same_world_refl (w : World) : same_world w w.
Proof. by split. Qed.

Lemma deterministic_ret {A : Type} (x : A) : deterministic (mret x : M A).
Proof. intros w1 w2 Hw. by rewrite !run_ret. Qed.

Lemma deterministic_bind {A B : Type} (m : M A) (k : A -> M B) :
  deterministic m -> (forall x, deterministic (k x)) ->
  deterministic (m ≫= k).
Proof.
  intros Hm Hk w1 w2 Hw. rewrite !run_bind.
  destruct (Hm w1 w2 Hw) as [-> Hw']. by apply Hk.
Qed.

Lemma deterministic_np_random_random : deterministic np_random_random.
Proof.
  intros w1 w2 [Hobj Hs]. unfold np_random_random. cbn [fst snd].
  split.
  - specialize (Hs 0%nat). by rewrite !Nat.add_0_r in Hs.
  - split; [done|]. intros n. cbn [np_random sample cursor].
    specialize (Hs (S n)). by rewrite !Nat.add_succ_r in Hs.
Qed.

Lemma deterministic_np_random_uniform (low high : R) :
  deterministic (np_random_uniform low high).
Proof.
  apply deterministic_bind; [apply deterministic_np_random_random|].
  intros u. apply deterministic_ret.
Qed.

Lemma deterministic_get_player (i : addr) : deterministic (get_player i).
Proof. intros w1 w2 [Hobj Hs]. unfold get_player. by rewrite Hobj. Qed.

Lemma deterministic_get_players (team : Team.t) :
  deterministic (get_players team).
Proof. intros w1 w2 [Hobj Hs]. unfold get_players. by rewrite Hobj. Qed.

Lemma deterministic_set_player_position (i : addr) (pos : Vec) :
  deterministic (set_player_position i pos).
Proof.
  intros w1 w2 [Hobj Hs]. unfold set_player_position. cbn [fst snd].
  split; [done|]. split; [|done]. cbn [objects]. by rewrite Hobj.
Qed.

Lemma deterministic_team_eq (t1 t2 : Team.t) : deterministic (team_eq t1 t2).
Proof. intros w1 w2 [Hobj Hs]. unfold team_eq. by rewrite Hobj. Qed.

Lemma deterministic_for_each {A : Type} (l : list A) (body : A -> M unit) :
  (forall x, deterministic (body x)) -> deterministic (for_each l body).
Proof.
  intros Hbody. induction l as [|x l IH]; simpl.
  - apply deterministic_ret.
  - apply deterministic_bind; [apply Hbody|]. intros _. exact IH.
Qed.

Create HintDb determinism.
#[local] Hint Resolve deterministic_ret deterministic_np_random_random
  deterministic_np_random_uniform deterministic_get_player
  deterministic_get_players deterministic_set_player_position
  deterministic_team_eq : determinism.

Ltac step_deterministic :=
  repeat first
    [ apply deterministic_bind; [|intros ?]
    | apply deterministic_for_each; intros ?
    | progress auto with determinism
    | match goal with
      | |- deterministic (match ?x with _ => _ end) => destruct x
      | |- deterministic (let '(_, _) := ?x in _) => destruct x
      end ].

Lemma deterministic_check_boundaries (x y : R) :
  deterministic (check_boundaries x y).
Proof. unfold check_boundaries. step_deterministic. Qed.

Lemma deterministic_place_attacker (i : addr) :
  deterministic (place_attacker i).
Proof. unfold place_attacker. step_deterministic. Qed.

Lemma deterministic_place_defender (i : addr) :
  deterministic (place_defender i).
Proof. unfold place_defender. step_deterministic. Qed.

Lemma deterministic_resolve_set_piece (state : GameState)
    (attacking_team defending_team : Team.t) :
  deterministic (resolve_set_piece state attacking_team defending_team).
Proof.
  unfold resolve_set_piece. destruct state; step_deterministic.
Qed.

Lemma deterministic_handle_action (action : string)
    (target_pos : option Vec) (self : t) :
  deterministic (handle_action action target_pos self).
Proof. unfold handle_action, get_defending_team. step_deterministic. Qed.

Lemma deterministic_boundary_check (self : t) (defending_team : Team.t) :
  deterministic (boundary_check self defending_team).
Proof.
  unfold boundary_check.
  apply deterministic_bind; [apply deterministic_check_boundaries|].
  intros new_state.
  destruct new_state; step_deterministic;
    apply deterministic_resolve_set_piece.
Qed.

Lemma deterministic_simulate_step (action : string)
    (target_pos : option Vec) (self : t) :
  deterministic (simulate_step action target_pos self).
Proof.
  unfold simulate_step.
  apply deterministic_bind; [apply deterministic_handle_action|].
  intros h.
  apply deterministic_bind; [apply deterministic_boundary_check|].
  intros [set_piece self']. apply deterministic_ret.
Qed.

Lemma deterministic_run (calls : list (string * option Vec)) (self : t) :
  deterministic (run calls self).
Proof.
  revert self. induction calls as [|[action target_pos] calls IH];
    intros self; simpl.
  - apply deterministic_ret.
  - apply deterministic_bind; [apply deterministic_simulate_step|].
    intros [event self']. apply IH.
Qed.

(** C7, as amended.  Two runs of a simulator built from the same teams,
    over the same player objects and with the process-wide generator about
    to hand out the same samples, that make the same sequence of
    [simulate_step] calls and nothing else, produce the same event log. *)
Theorem event_log_reproducible (calls : list (string * option Vec))
    (home_team away_team : Team.t) (w1 w2 : World) :
  same_world w1 w2 ->
  get_training_data (run calls (new home_team away_team) w1).1 =
  get_training_data (run calls (new home_team away_team) w2).1.
Proof.
  intros Hw.
  destruct (deterministic_run calls (new home_team away_team) w1 w2 Hw)
    as [-> _].
  reflexivity.
Qed.
End Determinism.

(** * Scenarios on the fixture *)

Section Scenarios.
Import PhysicsEngine SetPieceManager MatchSimulator.

Lemma fixture_unit_interval : unit_interval fixture_random.
Proof. intros n. simpl. destruct (Nat.even n); lra. Qed.

Lemma handle_action_shoot (target : Vec) (self : t) (w : World) :
  handle_action "SHOOT" (Some target) self w =
  ({| h_self := set_ball_position target self;
      h_defending := (get_defending_team self w).1;
      h_result := Some SHOT;
      h_interceptor := None |}, w).
Proof. reflexivity. Qed.

Lemma handle_action_dribble (target : Vec) (self : t) (w : World) :
  handle_action "DRIBBLE" (Some target) self w =
  ({| h_self := set_ball_position target self;
      h_defending := (get_defending_team self w).1;
      h_result := Some DRIBBLE;
      h_interceptor := None |}, w).
Proof. reflexivity. Qed.

(** While the home team is in possession the away team defends. *)
Lemma get_defending_team_home (self : t) (w : World) :
  possession_team self = home_team self ->
  (get_defending_team self w).1 = away_team self.
Proof.
  intros Hposs. unfold get_defending_team. rewrite run_bind.
  unfold team_eq. cbn [fst snd]. rewrite Hposs.
  by rewrite bool_decide_eq_true_2.
Qed.

(** [TestSetPieceManager.test_ball_out_sideline] *)
Example check_boundaries_sideline (w : World) :
  check_boundaries 50 75 w = (THROW_IN, w).
Proof. apply check_boundaries_side; lra. Qed.

(** C4, at the failing input.  On the test fixture, dribbling the ball to
    (50, 75) is classified as a throw-in, and the step ends with the ball at
    (0, 0), the initial value of [ball_pos] in [resolve_set_piece], not at
    (50, 75) where the action had put it. *)
Theorem throw_in_teleports_ball :
  let '((event, self'), w') :=
    simulate_step "DRIBBLE" (Some (50, 75)) fixture fixture_world in
  Event.result event = Some DRIBBLE /\
  Event.set_piece event = Some THROW_IN /\
  Ball.position (ball self') = (0, 0) /\
  Event.ball_pos_after event = (0, 0) /\
  Ball.position (ball self') <> (50, 75).
Proof.
  pose proof (simulate_step_facts "DRIBBLE" (Some (50, 75)) fixture
                fixture_world) as Hf.
  cbv zeta in Hf. rewrite handle_action_dribble in Hf.
  cbn [fst snd h_self h_result set_ball_position ball Ball.position] in Hf.
  rewrite check_boundaries_sideline in Hf. cbn [fst snd] in Hf.
  destruct (simulate_step _ _ _ _) as [[event self'] w']. cbn [fst snd] in Hf.
  destruct Hf as (Hres & _ & Hsp & Hafter & Hball & _).
  split; [done|]. split; [done|]. split; [done|]. split; [congruence|].
  rewrite Hball. intros [= H _]. lra.
Qed.

Lemma euclid_at_least (p q : Vec) (r : R) :
  0 <= r ->
  r * r <= (p.1 - q.1) * (p.1 - q.1) + (p.2 - q.2) * (p.2 - q.2) ->
  r <= euclid p q.
Proof.
  intros Hr Hsq. unfold euclid. rewrite <- (sqrt_square r) at 1 by exact Hr.
  by apply sqrt_le_1_alt.
Qed.

Lemma distance_at_least (p a b : Vec) (r : R) :
  (forall s, 0 <= s <= 1 -> r <= euclid p (along a b s)) ->
  r <= get_distance_point_to_segment p a b.
Proof.
  intros Hall. destruct (distance_attained p a b) as (t & Ht & ->).
  by apply Hall.
Qed.

(** The fixture's defender stands twelve metres behind the passer when the
    pass goes back towards the own goal line. *)
Lemma fixture_back_pass_clear :
  check_interception (40, 34) (-5, 34)
    (get_players fixture_away fixture_world).1 default_radius = (false, None).
Proof.
  apply check_interception_miss. repeat constructor.
  cbn [Player.position]. unfold default_radius. intros Hlt.
  apply (Rlt_not_le _ _ Hlt). apply distance_at_least. intros s Hs.
  apply euclid_at_least; [lra|].
  unfold along, vadd, vscale, vsub. cbn [fst snd]. nra.
Qed.

Lemma euclid_below (p q : Vec) (r : R) :
  0 < r ->
  (p.1 - q.1) * (p.1 - q.1) + (p.2 - q.2) * (p.2 - q.2) < r * r ->
  euclid p q < r.
Proof.
  intros Hr Hsq. unfold euclid. rewrite <- (sqrt_square r) at 1 by lra.
  apply sqrt_lt_1_alt. split; [|exact Hsq].
  pose proof (Rle_0_sqr (p.1 - q.1)) as H1.
  pose proof (Rle_0_sqr (p.2 - q.2)) as H2.
  unfold Rsqr in H1, H2. lra.
Qed.

Lemma distance_below (p a b : Vec) (r s : R) :
  0 <= s <= 1 -> euclid p (along a b s) < r ->
  get_distance_point_to_segment p a b < r.
Proof.
  intros Hs Hlt. pose proof (distance_lower_bound p a b s Hs). lra.
Qed.

(** [TestPhysicsEngine.test_interception_within_radius] *)
Example check_interception_within_radius (d : Player.t) :
  Player.position d = (5, 1) ->
  check_interception (0, 0) (10, 0) [d] 2 = (true, Some d).
Proof.
  intros Hpos. apply check_interception_hit. exists [], []. 
  split; [done|]. split; [constructor|]. rewrite Hpos.
  apply (distance_below _ _ _ _ 0.5); [lra|].
  apply euclid_below; [lra|].
  unfold along, vadd, vscale, vsub. cbn [fst snd]. nra.
Qed.

(** [TestPhysicsEngine.test_no_interception_outside_radius] *)
Example check_interception_outside_radius (d : Player.t) :
  Player.position d = (5, 10) ->
  check_interception (0, 0) (10, 0) [d] 2 = (false, None).
Proof.
  intros Hpos. apply check_interception_miss. repeat constructor.
  rewrite Hpos. intros Hlt. apply (Rlt_not_le _ _ Hlt).
  apply distance_at_least. intros s Hs. apply euclid_at_least; [lra|].
  unfold along, vadd, vscale, vsub. cbn [fst snd]. nra.
Qed.

(** The fixture's defender stands on the lane of a pass to (70, 34). *)
Lemma fixture_forward_pass_blocked :
  check_interception (40, 34) (70, 34)
    (get_players fixture_away fixture_world).1 default_radius =
  (true, Some {| Player.name := "Defender"; Player.position := (52, 34);
                 Player.position_role := "DEF";
                 Player.interception_stat := 0.5 |}).
Proof.
  apply check_interception_hit. exists [], [].
  split; [done|]. split; [constructor|]. cbn [Player.position].
  unfold default_radius.
  apply (distance_below _ _ _ _ 0.4); [lra|].
  apply euclid_below; [lra|].
  unfold along, vadd, vscale, vsub. cbn [fst snd]. nra.
Qed.

(** C1 does not hold as stated: on the fixture a pass to (-5, 34) is not
    intercepted, so its result is [SUCCESS]; the target lies behind the goal
    line, the boundary check awards a corner, and the step ends with the
    ball on a corner spot.  Neither outcome of the claim describes the end
    of this step. *)
Lemma pass_behind_goal_line_counterexample :
  let '((event, self'), w') :=
    simulate_step "PASS" (Some (-5, 34)) fixture fixture_world in
  ~ ((Event.result event = Some SUCCESS /\
      Ball.position (ball self') = (-5, 34)) \/
     (Event.result event = Some INTERCEPTED /\
      (exists d, d ∈ (get_players fixture_away fixture_world).1 /\
         Ball.position (ball self') = Player.position d) /\
      possession_team self' = fixture_away)).
Proof.
  pose proof (simulate_step_facts "PASS" (Some (-5, 34)) fixture
                fixture_world) as Hf.
  cbv zeta in Hf. rewrite handle_action_pass in Hf. cbv zeta in Hf.
  rewrite (get_defending_team_home fixture fixture_world eq_refl) in Hf.
  change (away_team fixture) with fixture_away in Hf.
  change (Ball.position (ball fixture)) with ((40, 34) : Vec) in Hf.
  rewrite fixture_back_pass_clear in Hf.
  cbn [fst snd h_self h_result set_ball_position ball Ball.position] in Hf.
  rewrite check_boundaries_behind in Hf by lra. cbn [fst snd] in Hf.
  destruct (simulate_step _ _ _ _) as [[event self'] w']. cbn [fst snd] in Hf.
  destruct Hf as (Hres & _ & _ & _ & Hball & _).
  intros [[_ Hpos]|[Hres' _]]; [|congruence].
  rewrite Hball in Hpos. injection Hpos as Hx _. lra.
Qed.

(** C10 does not hold as stated: between two teams without players a pass
    to (-5, 34) is not intercepted and records [SUCCESS], but the target
    lies behind the goal line, the boundary check of the same step awards a
    corner, and the step ends with the ball on a corner spot: the ball has
    not been moved to the target. *)
Lemma pass_against_empty_roster_counterexample :
  Team.players (get_defending_team bare_simulator fixture_world).1 = [] /\
  let '((event, self'), w') :=
    simulate_step "PASS" (Some (-5, 34)) bare_simulator fixture_world in
  Event.result event = Some SUCCESS /\
  Event.set_piece event = Some CORNER /\
  (Ball.position (ball self')).1 = 105 /\
  Ball.position (ball self') <> (-5, 34).
Proof.
  split; [by rewrite get_defending_team_home|].
  pose proof (simulate_step_facts "PASS" (Some (-5, 34)) bare_simulator
                fixture_world) as Hf.
  cbv zeta in Hf. rewrite handle_action_pass in Hf. cbv zeta in Hf.
  rewrite (get_defending_team_home bare_simulator fixture_world eq_refl)
    in Hf.
  change (get_players (away_team bare_simulator) fixture_world).1
    with (@nil Player.t) in Hf.
  cbn [fst snd check_interception h_self h_result set_ball_position ball
       Ball.position] in Hf.
  rewrite check_boundaries_behind in Hf by lra. cbn [fst snd] in Hf.
  destruct (simulate_step _ _ _ _) as [[event self'] w']. cbn [fst snd] in Hf.
  destruct Hf as (Hres & _ & Hsp & _ & Hball & _).
  split; [done|]. split; [done|]. rewrite Hball. cbn [fst].
  split; [done|]. intros [= Hx _]. lra.
Qed.

(** C8 does not hold as stated: with the ball staged at (110, 34), beyond
    the goal line, a step with the unknown action HOLD records no result
    and still moves the ball, because the boundary check runs on every
    step. *)
Lemma staged_ball_noop_counterexample :
  let self := set_ball_position (110, 34) fixture in
  let '((event, self'), w') := simulate_step "HOLD" None self fixture_world in
  Event.result event = None /\
  Ball.position (ball self') <> Ball.position (ball self).
Proof.
  intros self.
  pose proof (simulate_step_facts "HOLD" None self fixture_world) as Hf.
  cbv zeta in Hf. rewrite handle_action_noop in Hf by (by right).
  cbn [fst snd h_self h_result] in Hf.
  change (Ball.position (ball self)) with ((110, 34) : Vec) in *.
  cbn [fst snd] in Hf.
  rewrite check_boundaries_beyond in Hf by lra.
  destruct (simulate_step _ _ _ _) as [[event self'] w']. cbn [fst snd] in Hf.
  destruct Hf as (Hres & _ & _ & _ & Hball & _).
  split; [done|]. rewrite Hball.
  destruct (decide _); [destruct (decide _)|]; intros [= Hx]; lra.
Qed.

(** C7 does not hold as stated: from the same world (same seed, same teams,
    same players) the same single call, SHOOT to (110, 34), produces a
    different event log when another consumer of [np.random] has drawn one
    sample first.  The generator is the ambient one of the process, shared
    with every other caller, not a dependency owned by the simulator. *)
Lemma ambient_generator_counterexample :
  let calls := [("SHOOT"%string, Some ((110, 34) : Vec))] in
  get_training_data (run calls fixture fixture_world).1 <>
  get_training_data
    ((np_random_random ≫= fun _ => run calls fixture) fixture_world).1.
Proof.
  intros calls. unfold calls, run. rewrite !run_bind.
  set (w1 := (np_random_random fixture_world).2).
  pose proof (simulate_step_facts "SHOOT" (Some (110, 34)) fixture
                fixture_world) as Hf.
  pose proof (simulate_step_facts "SHOOT" (Some (110, 34)) fixture w1) as Hg.
  cbv zeta in Hf, Hg. rewrite handle_action_shoot in Hf, Hg.
  cbn [fst snd h_self set_ball_position ball Ball.position] in Hf, Hg.
  rewrite check_boundaries_beyond in Hf, Hg by lra.
  destruct (simulate_step _ _ _ fixture_world) as [[e1 s1] w1'].
  destruct (simulate_step _ _ _ w1) as [[e2 s2] w2'].
  cbn [fst snd] in *.
  destruct Hf as (_ & _ & Hsp1 & _ & _ & _ & _ & Hev1 & _).
  destruct Hg as (_ & _ & Hsp2 & _ & _ & _ & _ & Hev2 & _).
  unfold get_training_data. rewrite !run_ret. cbn [fst].
  rewrite Hev1, Hev2. change (events fixture) with (@nil Event.t).
  rewrite !app_nil_l.
  change (sample (np_random fixture_world) (cursor (np_random fixture_world)))
    with 0.75 in Hsp1.
  change (sample (np_random w1) (cursor (np_random w1))) with 0.25 in Hsp2.
  destruct (decide (0.75 > 0.5)) as [_|Hn]; [|lra].
  destruct (decide (0.25 > 0.5)) as [Hn|_]; [lra|].
  intros [= Heq]. congruence.
Qed.
End Scenarios.

(** * Instances *)

Section Instances.
Import PhysicsEngine SetPieceManager MatchSimulator.

(** [TestMatchSimulator.test_shot_out_of_bounds] with the fixture's
    generator: the shot to (110, 34) goes out for a corner. *)
Lemma set_piece_restart_witness :
  unit_interval (np_random fixture_world) /\
  let '((event, self'), w') :=
    simulate_step "SHOOT" (Some (110, 34)) fixture fixture_world in
  (Ball.position (ball self') = (105, 0) \/
   Ball.position (ball self') = (105, 68)) /\
  SetPieceManager.game_state (set_piece_manager self') = CORNER /\
  Event.set_piece event = Some CORNER.
Proof.
  split; [exact fixture_unit_interval|].
  pose proof (set_piece_restart "SHOOT" (Some (110, 34)) fixture
                fixture_world fixture_unit_interval) as H.
  rewrite handle_action_shoot in H.
  cbn [h_self set_ball_position ball Ball.position fst snd] in H.
  rewrite check_boundaries_beyond in H by lra.
  change (sample (np_random fixture_world) (cursor (np_random fixture_world)))
    with 0.75 in H.
  destruct (decide (0.75 > 0.5)) as [_|Hn]; [|lra].
  destruct (simulate_step _ _ _ _) as [[event self'] w'].
  destruct H as [Hcorner _].
  destruct (Hcorner eq_refl) as (Hball & _ & _ & _ & Hgs & Hsp & _).
  auto.
Defined.

(** An unknown action on the fixture: nothing moves. *)
Lemma noop_step_witness :
  ((("HOLD" <> "PASS") /\ ("HOLD" <> "SHOOT") /\ ("HOLD" <> "DRIBBLE"))%string \/
   (None : option Vec) = None) /\
  in_play (Ball.position (ball fixture)) /\
  let '((event, self'), w') := simulate_step "HOLD" None fixture fixture_world in
  Event.result event = None /\
  Ball.position (ball self') = (40, 34) /\
  w' = fixture_world.
Proof.
  assert (Hin : in_play (Ball.position (ball fixture))).
  { unfold in_play. cbn. lra. }
  split; [by right|]. split; [exact Hin|].
  pose proof (noop_step "HOLD" None fixture fixture_world
                (or_intror eq_refl)) as H.
  destruct (simulate_step _ _ _ _) as [[event self'] w'].
  destruct H as (Hres & _ & _ & _ & Hopen).
  destruct (Hopen Hin) as (Hball & _ & _ & Hw). auto.
Defined.

(** A pass between two teams without players, to a target inside the
    pitch. *)
Lemma pass_against_empty_roster_witness :
  Team.players (get_defending_team bare_simulator fixture_world).1 = [] /\
  let '((event, self'), w') :=
    simulate_step "PASS" (Some (45, 40)) bare_simulator fixture_world in
  Event.result event = Some SUCCESS /\
  Event.interceptor event = None /\
  Ball.position (ball self') = (45, 40) /\
  w' = fixture_world.
Proof.
  assert (Hempty :
    Team.players (get_defending_team bare_simulator fixture_world).1 = []).
  { by rewrite get_defending_team_home. }
  split; [exact Hempty|].
  pose proof (pass_against_empty_roster (45, 40) bare_simulator fixture_world
                Hempty) as (_ & _ & H).
  destruct (simulate_step _ _ _ _) as [[event self'] w'].
  destruct H as (Hres & Hint & _ & _ & _ & Hin).
  split; [exact Hres|]. split; [exact Hint|].
  destruct Hin as (Hball & _ & _ & Hw); [|by split].
  unfold in_play. cbn. lra.
Defined.

Lemma shifted_world_same : same_world fixture_world shifted_world.
Proof.
  split; [reflexivity|]. intros n.
  cbn [fixture_world shifted_world np_random sample cursor fixture_random].
  rewrite Nat.add_0_l, Nat.add_1_l, Nat.odd_succ. reflexivity.
Qed.

(** Two generators at different places of streams that agree from there on
    give the same log. *)
Lemma event_log_reproducible_witness :
  same_world fixture_world shifted_world /\
  get_training_data
    (run [("SHOOT"%string, Some ((110, 34) : Vec));
          ("PASS"%string, Some ((45, 40) : Vec))]
       (new fixture_home fixture_away) fixture_world).1 =
  get_training_data
    (run [("SHOOT"%string, Some ((110, 34) : Vec));
          ("PASS"%string, Some ((45, 40) : Vec))]
       (new fixture_home fixture_away) shifted_world).1.
Proof.
  split; [exact shifted_world_same|].
  apply event_log_reproducible. exact shifted_world_same.
Defined.

(** [TestMatchSimulator.test_intercepted_pass]: the pass to (70, 34) is
    intercepted by the defender at (52, 34), inside the pitch, so the ball
    ends there and the away team has the ball. *)
Lemma pass_outcome_witness :
  let '((event, self'), w') :=
    simulate_step "PASS" (Some (70, 34)) fixture fixture_world in
  Event.result event = Some INTERCEPTED /\
  Event.interceptor event = Some "Defender"%string /\
  possession_team self' = fixture_away /\
  Ball.position (ball self') = (52, 34).
Proof.
  pose proof (pass_outcome (70, 34) fixture fixture_world) as H.
  cbv zeta in H.
  rewrite (get_defending_team_home fixture fixture_world eq_refl) in H.
  change (away_team fixture) with fixture_away in H.
  change (Ball.position (ball fixture)) with ((40, 34) : Vec) in H.
  rewrite fixture_forward_pass_blocked in H.
  destruct (simulate_step _ _ _ _) as [[event self'] w'].
  destruct H as ((d & [= <-] & _ & Hres & Hint & Hposs & Hball) & _).
  cbn [Player.position Player.name] in *.
  split; [exact Hres|]. split; [exact Hint|]. split; [exact Hposs|].
  apply Hball. unfold in_play. cbn [fst snd]. lra.
Defined.

End Instances.

(** * The event log of a run *)

Section EventLog.
Import SetPieceManager MatchSimulator.

(** The event of a step photographs the simulator before and after it. *)
Lemma simulate_step_snapshots (action : string) (target_pos : option Vec)
    (self : t) (w : World) :
  let r := simulate_step action target_pos self w in
  Event.action r.1.1 = action /\
  snapshot_before r.1.1 = snapshot self /\
  snapshot_after r.1.1 = snapshot r.1.2.
Proof.
  intros r.
  pose proof (simulate_step_facts action target_pos self w) as Hf.
  cbv zeta in Hf. fold r in Hf.
  destruct Hf as (_ & _ & Hsp & Hafter & _ & Hgs & _).
  assert (Hr : r = simulate_step action target_pos self w) by done.
  rewrite simulate_step_unfold in Hr. cbv zeta in Hr.
  split; [by rewrite Hr|]. split; [by rewrite Hr|].
  unfold snapshot_after, snapshot. rewrite Hafter, Hgs, Hsp.
  f_equal; [f_equal|].
  - by rewrite Hr.
  - by destruct (check_boundaries _ _ _).1.
Qed.

Lemma run_cons (action : string) (target_pos : option Vec)
    (calls : list (string * option Vec)) (self : t) (w : World) :
  run ((action, target_pos) :: calls) self w =
  run calls (simulate_step action target_pos self w).1.2
    (simulate_step action target_pos self w).2.
Proof.
  simpl. rewrite run_bind.
  by destruct (simulate_step action target_pos self w) as [[e s] w'].
Qed.

Lemma run_log (calls : list (string * option Vec))
    (self : t) (w : World) :
  exists new_events,
    get_training_data (run calls self w).1 =
      get_training_data self ++ new_events /\
    length new_events = length calls /\
    Event.action <$> new_events = fst <$> calls /\
    linked (snapshot self) new_events (snapshot (run calls self w).1).
Proof.
  revert self w. induction calls as [|[action target_pos] calls IH];
    intros self w.
  - exists []. cbn. by rewrite app_nil_r.
  - rewrite run_cons.
    pose proof (simulate_step_facts action target_pos self w) as Hf.
    pose proof (simulate_step_snapshots action target_pos self w) as Hs.
    cbv zeta in Hf, Hs.
    destruct (simulate_step action target_pos self w) as [[e self1] w1].
    cbn [fst snd] in *.
    destruct Hf as (_ & _ & _ & _ & _ & _ & _ & Hev & _).
    destruct Hs as (Hact & Hbefore & Hafter).
    destruct (IH self1 w1) as (rest & Hlog & Hlen & Hacts & Hlinked).
    exists (e :: rest). unfold get_training_data in *.
    rewrite Hlog, Hev, <- app_assoc. cbn [app length fmap list_fmap fst].
    split; [done|]. split; [by rewrite Hlen|].
    split; [by rewrite Hact, <- Hacts|].
    split; [done|]. by rewrite Hafter.
Qed.

(** X1.  A run of [simulate_step] calls leaves the events that were already in
    the log where they were and adds exactly one event per call, in call
    order, each carrying the action string of its call. *)
Theorem run_appends_one_event_per_call (calls : list (string * option Vec))
    (self : t) (w : World) :
  exists new_events,
    get_training_data (run calls self w).1 =
      get_training_data self ++ new_events /\
    length new_events = length calls /\
    Event.action <$> new_events = fst <$> calls.
Proof.
  destruct (run_log calls self w) as (new_events & ? & ? & ? & _).
  by exists new_events.
Qed.

(** X2.  The log of a run on a new simulator is gapless: the first event
    starts from the constructor's ball position, possession and game state,
    every later event starts from the ball position, possession holder and
    game state the previous event ended with, and the last event ends in the
    simulator's current state. *)
Theorem run_log_is_linked (calls : list (string * option Vec))
    (home_team away_team : Team.t) (w : World) :
  let self := new home_team away_team in
  linked (snapshot self) (get_training_data (run calls self w).1)
    (snapshot (run calls self w).1).
Proof.
  intros self.
  destruct (run_log calls self w) as (new_events & Hlog & _ & _ & Hlinked).
  by rewrite Hlog.
Qed.
End EventLog.

(** * Invariants of a step *)

Section StepInvariants.
Import SetPieceManager MatchSimulator.

(** X3.  Whatever the action, the target and the position of the ball
    before, a step ends with the ball inside the pitch, the recorded
    [ball_pos_after] included; [game_state] is [OPEN_PLAY] exactly when the
    event has no [set_piece] entry, and a [set_piece] entry is never
    [OPEN_PLAY] and equals the new [game_state]. *)
Theorem step_leaves_ball_in_play (action : string)
    (target_pos : option Vec) (self : t) (w : World) :
  let '((event, self'), w') := simulate_step action target_pos self w in
  in_play (Ball.position (ball self')) /\
  in_play (Event.ball_pos_after event) /\
  (SetPieceManager.game_state (set_piece_manager self') = OPEN_PLAY <->
   Event.set_piece event = None) /\
  (forall state, Event.set_piece event = Some state ->
     state <> OPEN_PLAY /\
     SetPieceManager.game_state (set_piece_manager self') = state).
Proof.
  pose proof (simulate_step_in_play action target_pos self w) as Hin.
  pose proof (simulate_step_facts action target_pos self w) as Hf.
  cbv zeta in Hf.
  destruct (simulate_step action target_pos self w) as [[event self'] w'].
  cbn [fst snd] in *.
  destruct Hf as (_ & _ & Hsp & Hafter & _ & Hgs & _).
  rewrite Hafter, Hgs, Hsp.
  split; [done|]. split; [done|].
  destruct (check_boundaries _ _ _).1; split; try done.
  all: try (split; [done|discriminate]);
    try (intros state [= <-]; done); try (split; discriminate).
Qed.

Lemma handle_action_move (action : string) (target : Vec) (self : t)
    (w : World) :
  action = "SHOOT"%string \/ action = "DRIBBLE"%string ->
  handle_action action (Some target) self w =
  ({| h_self := set_ball_position target self;
      h_defending := (get_defending_team self w).1;
      h_result := Some (if String.eqb action "SHOOT" then SHOT else DRIBBLE);
      h_interceptor := None |}, w).
Proof. by intros [-> | ->]. Qed.

(** X4.  SHOOT and DRIBBLE with a target never consult the defenders: the
    result is [SHOT] (or [DRIBBLE]), there is no interceptor, possession is
    kept, and when the target lies inside the pitch the ball ends on it, no
    set piece is recorded and the world is untouched. *)
Theorem shot_or_dribble_is_never_intercepted (action : string) (target : Vec)
    (self : t) (w : World) :
  action = "SHOOT"%string \/ action = "DRIBBLE"%string ->
  let '((event, self'), w') := simulate_step action (Some target) self w in
  Event.result event =
    Some (if String.eqb action "SHOOT" then SHOT else DRIBBLE) /\
  Event.interceptor event = None /\
  possession_team self' = possession_team self /\
  (in_play target ->
     Ball.position (ball self') = target /\
     Event.set_piece event = None /\
     w' = w).
Proof.
  intros Haction.
  pose proof (simulate_step_facts action (Some target) self w) as Hf.
  cbv zeta in Hf. rewrite (handle_action_move _ _ _ _ Haction) in Hf.
  cbn [fst snd h_self h_result h_interceptor set_ball_position ball
       possession_team Ball.position] in Hf.
  destruct (simulate_step action (Some target) self w) as [[event self'] w'].
  cbn [fst snd] in Hf.
  destruct Hf as (Hres & Hint & Hsp & _ & Hball & _ & Hposs & _ & Hw).
  do 3 (split; [done|]). intros Hin. destruct target as [x y].
  cbn [fst snd] in *. rewrite check_boundaries_open in * by done.
  cbn [fst snd] in *. split; [done|]. split; [done|]. by apply Hw.
Qed.

(** Action handling touches possession only when it records an
    interception. *)
Lemma handle_action_possession (action : string) (target_pos : option Vec)
    (self : t) (w : World) :
  let h := (handle_action action target_pos self w).1 in
  (h_result h = Some INTERCEPTED /\ action = "PASS"%string /\
   possession_team (h_self h) = (get_defending_team self w).1) \/
  (h_result h <> Some INTERCEPTED /\
   possession_team (h_self h) = possession_team self).
Proof.
  unfold handle_action. rewrite run_bind, get_defending_team_world.
  destruct (String.eqb_spec action "PASS") as [->|Hp];
    destruct target_pos as [target|];
    try (destruct (String.eqb action "SHOOT"));
    try (destruct (String.eqb action "DRIBBLE")); try (by right).
  all: rewrite run_bind; cbn [fst snd get_players];
    destruct (PhysicsEngine.check_interception _ _ _ _) as [[] [d|]];
    try (by right); by left.
Qed.

Lemma get_defending_team_cases (self : t) (w : World) :
  (get_defending_team self w).1 = away_team self \/
  (get_defending_team self w).1 = home_team self.
Proof.
  unfold get_defending_team. rewrite run_bind.
  destruct (team_eq _ _ w).1; auto.
Qed.

(** X5.  A step never replaces the two teams; it changes possession only
    when its result is [INTERCEPTED], which only a PASS produces, and then
    possession goes to the defending team; with any other result the
    possession holder, also as named in the event, is the same before and
    after.  A possession holder that is one of the two teams stays one of
    them. *)
Theorem possession_changes_only_by_interception (action : string)
    (target_pos : option Vec) (self : t) (w : World) :
  let '((event, self'), w') := simulate_step action target_pos self w in
  home_team self' = home_team self /\
  away_team self' = away_team self /\
  (Event.result event <> Some INTERCEPTED ->
     possession_team self' = possession_team self /\
     Event.possession_after event = Event.possession_before event) /\
  (Event.result event = Some INTERCEPTED ->
     action = "PASS"%string /\
     possession_team self' = (get_defending_team self w).1) /\
  (possession_team self = home_team self \/
   possession_team self = away_team self ->
   possession_team self' = home_team self' \/
   possession_team self' = away_team self').
Proof.
  pose proof (simulate_step_facts action target_pos self w) as Hf.
  pose proof (simulate_step_snapshots action target_pos self w) as Hs.
  pose proof (handle_action_possession action target_pos self w) as Hh.
  pose proof (handle_action_frame action target_pos self w) as Hfr.
  pose proof (simulate_step_unfold action target_pos self w) as Hu.
  cbv zeta in Hf, Hs, Hh, Hfr, Hu.
  destruct (boundary_check_ball (h_self (handle_action action target_pos self w).1)
              (h_defending (handle_action action target_pos self w).1) w)
    as (_ & _ & _ & _ & _ & Hhome & Haway & _).
  apply (f_equal (fun r => (home_team r.1.2, away_team r.1.2))) in Hu.
  cbn [fst snd append_event home_team away_team] in Hu.
  rewrite Hhome, Haway in Hu.
  destruct Hfr as (Hhome' & Haway' & _). rewrite Hhome', Haway' in Hu.
  destruct (simulate_step action target_pos self w) as [[event self'] w'].
  cbn [fst snd] in *. injection Hu as Hh1 Hh2.
  destruct Hf as (Hres & _ & _ & _ & _ & _ & Hposs & _).
  destruct Hs as (_ & Hbefore & Hafter).
  unfold snapshot_before, snapshot_after, snapshot in Hbefore, Hafter.
  injection Hbefore as _ Hpb _. injection Hafter as _ Hpa _.
  rewrite Hres, Hposs, Hh1, Hh2.
  split; [done|]. split; [done|].
  destruct Hh as [(Hi & Hact & Hp)|[Hni Hp]].
  - split; [done|]. split; [done|]. intros _. rewrite Hp.
    destruct (get_defending_team_cases self w) as [-> | ->]; auto.
  - split; [|split; [done|by rewrite Hp]].
    intros _. split; [done|]. by rewrite Hpa, Hpb, Hposs, Hp.
Qed.
End StepInvariants.

(** * What a corner kick touches *)

Section Corner.
Import SetPieceManager MatchSimulator.

Lemma keeps_is_outfield (w w' : World) (i : addr) :
  keeps w w' -> is_outfield w' i = is_outfield w i.
Proof.
  intros (_ & Hid & _). unfold is_outfield.
  destruct (objects w !! i) as [p|] eqn:Hp, (objects w' !! i) as [p'|] eqn:Hp'.
  - destruct (Forall2_lookup_lr _ _ _ i p p' Hid Hp Hp') as (_ & -> & _). done.
  - apply lookup_ge_None in Hp'. apply lookup_lt_Some in Hp.
    apply Forall2_length in Hid. lia.
  - apply lookup_ge_None in Hp. apply lookup_lt_Some in Hp'.
    apply Forall2_length in Hid. lia.
  - done.
Qed.

Lemma keeps_outfield_count (w w' : World) (roster : list addr) :
  keeps w w' -> outfield_count w' roster = outfield_count w roster.
Proof.
  intros Hk. unfold outfield_count. f_equal.
  apply List.filter_ext. intros i. by apply keeps_is_outfield.
Qed.

Lemma is_outfield_true (w : World) (i : addr) :
  is_outfield w i = true <->
  exists p, objects w !! i = Some p /\ Player.position_role p <> "GK"%string.
Proof.
  unfold is_outfield. destruct (objects w !! i) as [p|]; split.
  - intros H. exists p. split; [done|]. intros Hgk. rewrite Hgk in H.
    by rewrite String.eqb_refl in H.
  - intros (q & [= <-] & Hne). apply String.eqb_neq in Hne. by rewrite Hne.
  - done.
  - by intros (q & ? & _).
Qed.

Lemma set_player_position_keeps (i : addr) (pos : Vec) (w : World) :
  keeps w (set_player_position i pos w).2.
Proof. by apply set_player_position_repositions. Qed.

Lemma set_player_position_other (i j : addr) (pos : Vec) (w : World) :
  j <> i -> objects (set_player_position i pos w).2 !! j = objects w !! j.
Proof. intros Hne. cbn. by rewrite list_lookup_alter_ne. Qed.

Lemma place_attacker_effect (i : addr) (w : World) :
  let w' := (place_attacker i w).2 in
  keeps w w' /\
  cursor (np_random w') =
    (cursor (np_random w) + if is_outfield w i then 2 else 0)%nat /\
  forall j, j <> i \/ is_outfield w j = false ->
    objects w' !! j = objects w !! j.
Proof.
  unfold place_attacker, is_outfield. rewrite run_bind. unfold get_player.
  cbn [fst snd].
  destruct (objects w !! i) as [p|] eqn:Hp.
  2:{ rewrite run_ret. cbn [snd]. split; [apply repositions_refl|].
      split; [lia|done]. }
  destruct (decide _) as [Hrole|Hrole].
  - apply String.eqb_neq in Hrole as Hb. rewrite Hb. cbn [negb].
    rewrite !run_bind. split; [|split].
    + eapply repositions_trans; [apply np_random_random_repositions|].
      rewrite np_random_uniform_world.
      eapply repositions_trans; [apply np_random_random_repositions|].
      rewrite np_random_uniform_world. apply set_player_position_keeps.
    + simpl. lia.
    + intros j [Hj|Hj].
      * rewrite set_player_position_other by done. done.
      * destruct (decide (j = i)) as [->|Hne];
          [|by rewrite set_player_position_other].
        rewrite Hp, Hb in Hj. done.
  - rewrite run_ret. cbn [snd].
    assert (Hb : String.eqb (Player.position_role p) "GK" = true).
    { apply String.eqb_eq. by destruct (decide (Player.position_role p = "GK"%string)); [|destruct Hrole]. }
    rewrite Hb. cbn [negb]. split; [apply repositions_refl|].
    split; [lia|done].
Qed.

Lemma place_defender_effect (i : addr) (w : World) :
  let w' := (place_defender i w).2 in
  keeps w w' /\
  cursor (np_random w') =
    (cursor (np_random w) + if is_outfield w i then 2 else 0)%nat /\
  forall j, j <> i -> objects w' !! j = objects w !! j.
Proof.
  unfold place_defender, is_outfield. rewrite run_bind. unfold get_player.
  cbn [fst snd].
  destruct (objects w !! i) as [p|] eqn:Hp.
  2:{ rewrite run_ret. cbn [snd]. split; [apply repositions_refl|].
      split; [lia|done]. }
  destruct (decide _) as [Hrole|Hrole].
  - apply String.eqb_eq in Hrole as Hb. rewrite Hb. cbn [negb].
    split; [apply set_player_position_keeps|]. split; [cbn; lia|].
    intros j Hj. by rewrite set_player_position_other.
  - apply String.eqb_neq in Hrole as Hb. rewrite Hb. cbn [negb].
    rewrite !run_bind. split; [|split].
    + eapply repositions_trans; [apply np_random_random_repositions|].
      rewrite np_random_uniform_world.
      eapply repositions_trans; [apply np_random_random_repositions|].
      rewrite np_random_uniform_world. apply set_player_position_keeps.
    + simpl. lia.
    + intros j Hj. by rewrite set_player_position_other.
Qed.

Lemma for_each_attackers_effect (roster : list addr) (w : World) :
  let w' := (for_each roster place_attacker w).2 in
  keeps w w' /\
  cursor (np_random w') =
    (cursor (np_random w) + 2 * outfield_count w roster)%nat /\
  forall j, j ∉ roster \/ is_outfield w j = false ->
    objects w' !! j = objects w !! j.
Proof.
  revert w. induction roster as [|i roster IH]; intros w; simpl.
  - split; [apply repositions_refl|]. split; [unfold outfield_count; simpl; lia|done].
  - rewrite run_bind.
    destruct (place_attacker_effect i w) as (Hk1 & Hc1 & Hf1).
    destruct (IH (place_attacker i w).2) as (Hk2 & Hc2 & Hf2).
    split; [by eapply repositions_trans|]. split.
    + rewrite Hc2, Hc1, (keeps_outfield_count _ _ _ Hk1).
      unfold outfield_count. simpl. destruct (is_outfield w i); simpl; lia.
    + intros j Hj. rewrite Hf2, Hf1; [done| |].
      * destruct Hj as [Hj|Hj]; [left|by right].
        intros ->. apply Hj. left.
      * destruct Hj as [Hj|Hj]; [left|right].
        -- intros Hin. apply Hj. by right.
        -- by rewrite (keeps_is_outfield _ _ _ Hk1).
Qed.

Lemma for_each_defenders_effect (roster : list addr) (w : World) :
  let w' := (for_each roster place_defender w).2 in
  keeps w w' /\
  cursor (np_random w') =
    (cursor (np_random w) + 2 * outfield_count w roster)%nat /\
  forall j, j ∉ roster -> objects w' !! j = objects w !! j.
Proof.
  revert w. induction roster as [|i roster IH]; intros w; simpl.
  - split; [apply repositions_refl|]. split; [unfold outfield_count; simpl; lia|done].
  - rewrite run_bind.
    destruct (place_defender_effect i w) as (Hk1 & Hc1 & Hf1).
    destruct (IH (place_defender i w).2) as (Hk2 & Hc2 & Hf2).
    split; [by eapply repositions_trans|]. split.
    + rewrite Hc2, Hc1, (keeps_outfield_count _ _ _ Hk1).
      unfold outfield_count. simpl. destruct (is_outfield w i); simpl; lia.
    + intros j Hj. rewrite Hf2, Hf1; [done| |].
      * intros ->. apply Hj. left.
      * intros Hin. apply Hj. by right.
Qed.

Lemma resolve_set_piece_corner_effect (attacking defending : Team.t)
    (w : World) :
  let w' := (resolve_set_piece CORNER attacking defending w).2 in
  keeps w w' /\
  cursor (np_random w') =
    (cursor (np_random w) + 1 + 2 * outfield_count w (Team.players attacking)
       + 2 * outfield_count w (Team.players defending))%nat /\
  forall j, j ∉ Team.players defending ->
    j ∉ Team.players attacking \/ is_outfield w j = false ->
    objects w' !! j = objects w !! j.
Proof.
  unfold resolve_set_piece. rewrite !run_bind, run_ret. cbn [snd].
  set (w1 := (np_random_random w).2).
  assert (Hk0 : keeps w w1) by apply np_random_random_repositions.
  destruct (for_each_attackers_effect (Team.players attacking) w1)
    as (Hk1 & Hc1 & Hf1).
  set (w2 := (for_each (Team.players attacking) place_attacker w1).2) in *.
  destruct (for_each_defenders_effect (Team.players defending) w2)
    as (Hk2 & Hc2 & Hf2).
  split; [|split].
  - eapply repositions_trans; [exact Hk0|]. by eapply repositions_trans.
  - rewrite Hc2, Hc1, (keeps_outfield_count _ _ _ Hk1),
      !(keeps_outfield_count _ _ _ Hk0). unfold w1. simpl. lia.
  - intros j Hd Ha. rewrite Hf2 by done. rewrite Hf1; [done|].
    destruct Ha as [Ha|Ha]; [by left|right].
    by rewrite (keeps_is_outfield _ _ _ Hk0).
Qed.

(** X8.  Resolving a corner leaves alone every player who is not on the
    defending roster and is either not on the attacking roster or a
    goalkeeper: bystanders and the attacking goalkeeper keep their
    position. *)
Theorem corner_leaves_bystanders_and_attacking_keeper
    (attacking defending : Team.t) (w : World) (i : addr) :
  i ∉ Team.players defending ->
  i ∉ Team.players attacking \/
    (exists p, objects w !! i = Some p /\
               Player.position_role p = "GK"%string) ->
  objects (resolve_set_piece CORNER attacking defending w).2 !! i =
  objects w !! i.
Proof.
  intros Hd Ha.
  destruct (resolve_set_piece_corner_effect attacking defending w)
    as (_ & _ & Hf).
  apply Hf; [done|]. destruct Ha as [Ha|(p & Hp & Hgk)]; [by left|right].
  unfold is_outfield. rewrite Hp, Hgk. done.
Qed.

(** X9.  [check_boundaries] draws one sample when [x > 105] and none
    otherwise; [resolve_set_piece] draws, for a corner, one sample for the
    side and two for every roster entry of either team that refers to a
    player other than a goalkeeper, and none for any other state.  Neither
    changes the stream of samples. *)
Theorem set_piece_draws (state : GameState) (attacking defending : Team.t)
    (x y : R) (w : World) :
  let w1 := (check_boundaries x y w).2 in
  let w2 := (resolve_set_piece state attacking defending w).2 in
  sample (np_random w1) = sample (np_random w) /\
  cursor (np_random w1) =
    (cursor (np_random w) + if decide (x > 105)%R then 1 else 0)%nat /\
  sample (np_random w2) = sample (np_random w) /\
  cursor (np_random w2) =
    (cursor (np_random w) +
     match state with
     | CORNER =>
         1 + 2 * outfield_count w (Team.players attacking)
           + 2 * outfield_count w (Team.players defending)
     | _ => 0
     end)%nat.
Proof.
  intros w1 w2. split; [|split; [|split]].
  - by destruct (check_boundaries_repositions (fun _ => True) x y w).
  - unfold w1, check_boundaries.
    destruct (decide _) as [[[? ?] ?]|_].
    { destruct (decide (x > 105)); [lra|]. rewrite run_ret. simpl. lia. }
    destruct (decide (x > 105)).
    { rewrite run_bind, run_ret. simpl. lia. }
    destruct (decide (x < 0)); rewrite run_ret; simpl; lia.
  - destruct state; try done.
    by destruct (resolve_set_piece_corner_effect attacking defending w)
      as ((? & _) & _).
  - destruct state; try (unfold w2, resolve_set_piece; rewrite run_ret; simpl; lia).
    destruct (resolve_set_piece_corner_effect attacking defending w)
      as (_ & Hc & _). unfold w2. rewrite Hc. lia.
Qed.
End Corner.

(** * Sessions with the simulator *)

Section Sessions.
Import SetPieceManager MatchSimulator.

Lemma simulate_step_world (action : string) (target_pos : option Vec)
    (self : t) (w : World) :
  let h := (handle_action action target_pos self w).1 in
  let c := check_boundaries (Ball.position (ball (h_self h))).1
             (Ball.position (ball (h_self h))).2 w in
  (simulate_step action target_pos self w).2 =
  match c.1 with
  | OPEN_PLAY => c.2
  | state =>
      (resolve_set_piece state (possession_team (h_self h)) (h_defending h)
         c.2).2
  end.
Proof.
  intros h c. rewrite simulate_step_unfold. fold h. cbv zeta. cbn [snd].
  rewrite boundary_check_unfold. fold c. clearbody c.
  by destruct c as [[] w1].
Qed.

Lemma simulate_step_keeps (action : string)
    (target_pos : option Vec) (self : t) (w : World) :
  let '((event, self'), w') := simulate_step action target_pos self w in
  sample (np_random w') = sample (np_random w) /\
  Forall2 same_identity (objects w) (objects w') /\
  (Event.set_piece event <> Some CORNER -> objects w' = objects w).
Proof.
  pose proof (simulate_step_world action target_pos self w) as Hw.
  pose proof (simulate_step_facts action target_pos self w) as Hf.
  cbv zeta in Hw, Hf.
  destruct (simulate_step action target_pos self w) as [[event self'] w'].
  cbn [fst snd] in *. destruct Hf as (_ & _ & Hsp & _).
  set (c := check_boundaries _ _ w) in *.
  assert (Hk : keeps w c.2) by apply check_boundaries_repositions.
  assert (Hobj : objects c.2 = objects w) by apply check_boundaries_objects.
  rewrite Hsp, Hw. clearbody c. destruct c as [[] w1]; cbn [fst snd] in *.
  - destruct Hk as (? & ? & _). done.
  - destruct (resolve_set_piece_corner_effect
                (possession_team (h_self (handle_action action target_pos self w).1))
                (h_defending (handle_action action target_pos self w).1) w1)
      as (Hk' & _).
    destruct (repositions_trans _ _ _ _ Hk Hk') as (? & ? & _). done.
  - unfold resolve_set_piece. rewrite run_ret. cbn [snd].
    destruct Hk as (? & ? & _). done.
  - unfold resolve_set_piece. rewrite run_ret. cbn [snd].
    destruct Hk as (? & ? & _). done.
Qed.

(** X7.  A step never adds, removes, renames or re-roles a player: the
    store keeps its size and every object its name, role and interception
    skill.  Unless the step records a corner, every player also keeps his
    position. *)
Theorem players_move_only_at_corner (action : string)
    (target_pos : option Vec) (self : t) (w : World) :
  let '((event, self'), w') := simulate_step action target_pos self w in
  length (objects w') = length (objects w) /\
  (forall i p', objects w' !! i = Some p' ->
     exists p, objects w !! i = Some p /\ same_identity p p') /\
  (Event.set_piece event <> Some CORNER -> objects w' = objects w).
Proof.
  pose proof (simulate_step_keeps action target_pos self w) as Hk.
  destruct (simulate_step action target_pos self w) as [[event self'] w'].
  destruct Hk as (_ & Hid & Hsame).
  split; [symmetry; by eapply Forall2_length|]. split; [|done].
  intros i p' Hp'.
  destruct (Forall2_lookup_r _ _ _ i p' Hid Hp') as (p & Hp & Hpp').
  by exists p.
Qed.

Lemma simulate_step_teams (action : string) (target_pos : option Vec)
    (self : t) (w : World) :
  let self' := (simulate_step action target_pos self w).1.2 in
  home_team self' = home_team self /\
  away_team self' = away_team self /\
  (possession_team self = home_team self \/
   possession_team self = away_team self ->
   possession_team self' = home_team self \/
   possession_team self' = away_team self).
Proof.
  pose proof (simulate_step_facts action target_pos self w) as Hf.
  pose proof (handle_action_possession action target_pos self w) as Hh.
  pose proof (handle_action_frame action target_pos self w) as Hfr.
  cbv zeta in Hf, Hh, Hfr. rewrite simulate_step_unfold in *.
  cbn [fst snd append_event home_team away_team possession_team] in *.
  destruct (boundary_check_ball
              (h_self (handle_action action target_pos self w).1)
              (h_defending (handle_action action target_pos self w).1) w)
    as (_ & _ & _ & Hposs & _ & Hhome & Haway & _).
  destruct Hfr as (Hhome' & Haway' & _).
  rewrite Hhome, Haway, Hposs, Hhome', Haway'.
  split; [done|]. split; [done|]. intros Hin.
  destruct Hh as [(_ & _ & ->)|[_ ->]]; [|done].
  destruct (get_defending_team_cases self w) as [-> | ->]; auto.
Qed.

Lemma session_step (action : string) (target_pos : option Vec)
    (rest : list Command) (self : t) (w : World) :
  session (Step action target_pos :: rest) self w =
  session rest (simulate_step action target_pos self w).1.2
    (simulate_step action target_pos self w).2.
Proof.
  simpl. rewrite run_bind.
  by destruct (simulate_step action target_pos self w) as [[e s] w'].
Qed.

Lemma session_reset (rest : list Command) (self : t) (w : World) :
  session (Reset :: rest) self w = session rest (reset self w).1 w.
Proof. simpl. by rewrite run_bind. Qed.

(** X10.  Over any session of steps, resets and stagings of the ball, the
    length of the event log is the number of steps since the last reset (or,
    without a reset, the initial length plus the number of steps); staging
    the ball logs nothing. *)
Theorem session_log_length (commands : list Command) (self : t)
    (w : World) :
  length (get_training_data (session commands self w).1) =
  log_length (length (get_training_data self)) commands.
Proof.
  revert self w. induction commands as [|[action target_pos| |pos] rest IH];
    intros self w.
  - done.
  - rewrite session_step, IH. cbn [log_length]. f_equal.
    pose proof (simulate_step_facts action target_pos self w) as Hf.
    cbv zeta in Hf. destruct Hf as (_ & _ & _ & _ & _ & _ & _ & Hev & _).
    unfold get_training_data. rewrite Hev, length_app. simpl. lia.
  - rewrite session_reset, IH. done.
  - simpl. rewrite IH. done.
Qed.

Lemma session_in_play (commands : list Command) (self : t)
    (w : World) :
  stages_in_play commands ->
  in_play (Ball.position (ball self)) ->
  in_play (Ball.position (ball (session commands self w).1)).
Proof.
  revert self w. induction commands as [|[action target_pos| |pos] rest IH];
    intros self w Hstage Hin.
  - done.
  - rewrite session_step. apply IH.
    + intros pos Hpos. apply Hstage. by right.
    + apply simulate_step_in_play.
  - rewrite session_reset. apply IH.
    + intros pos Hpos. apply Hstage. by right.
    + apply reset_in_play.
  - simpl. apply IH.
    + intros pos' Hpos. apply Hstage. by right.
    + apply Hstage. left.
Qed.

(** X11.  In a session that starts with the ball inside the pitch and
    stages it only inside the pitch, the ball is inside the pitch at the
    end, and a following step with an unknown action or without a target
    leaves the ball where it is, records no result and no set piece, and
    does not touch the world. *)
Theorem session_keeps_ball_in_play (commands : list Command) (self : t)
    (w : World) :
  stages_in_play commands ->
  in_play (Ball.position (ball self)) ->
  let r := session commands self w in
  in_play (Ball.position (ball r.1)) /\
  forall action target_pos,
    (action <> "PASS" /\ action <> "SHOOT" /\ action <> "DRIBBLE")%string \/
      target_pos = None ->
    let '((event, self'), w') := simulate_step action target_pos r.1 r.2 in
    Ball.position (ball self') = Ball.position (ball r.1) /\
    Event.result event = None /\
    Event.set_piece event = None /\
    w' = r.2.
Proof.
  intros Hstage Hin r.
  pose proof (session_in_play commands self w Hstage Hin) as Hr.
  fold r in Hr. split; [exact Hr|]. intros action target_pos Hnoop.
  pose proof (simulate_step_facts action target_pos r.1 r.2) as Hf.
  cbv zeta in Hf. rewrite (handle_action_noop _ _ _ _ Hnoop) in Hf.
  cbn [fst snd h_self h_result] in Hf.
  destruct (simulate_step action target_pos r.1 r.2) as [[event self'] w'].
  cbn [fst snd] in Hf.
  destruct (Ball.position (ball r.1)) as [x y] eqn:Hpos. cbn [fst snd] in Hf.
  rewrite (check_boundaries_open x y r.2 Hr) in Hf. cbn [fst snd] in Hf.
  destruct Hf as (Hres & _ & Hsp & _ & Hball & _ & _ & _ & Hw).
  split; [done|]. split; [done|]. split; [done|]. by apply Hw.
Qed.

Lemma session_frame (commands : list Command)
    (self : t) (w : World) :
  let r := session commands self w in
  home_team r.1 = home_team self /\
  away_team r.1 = away_team self /\
  (possession_team self = home_team self \/
   possession_team self = away_team self ->
   possession_team r.1 = home_team self \/
   possession_team r.1 = away_team self) /\
  sample (np_random r.2) = sample (np_random w) /\
  Forall2 same_identity (objects w) (objects r.2).
Proof.
  revert self w. induction commands as [|[action target_pos| |pos] rest IH];
    intros self w; cbv zeta.
  - simpl. do 4 (split; [done|]).
    by destruct (repositions_refl (fun _ => True) w) as (_ & ? & _).
  - rewrite session_step.
    destruct (simulate_step_teams action target_pos self w)
      as (Hhome & Haway & Hposs).
    pose proof (simulate_step_keeps action target_pos self w) as Hk.
    destruct (simulate_step action target_pos self w) as [[e self1] w1].
    cbn [fst snd] in *. destruct Hk as (Hs & Hid & _).
    destruct (IH self1 w1) as (Hhome1 & Haway1 & Hposs1 & Hs1 & Hid1).
    rewrite Hhome1, Haway1, Hs1, Hhome, Haway, Hs.
    rewrite Hhome, Haway in Hposs1.
    do 2 (split; [done|]). split; [auto|]. split; [done|].
    eapply Forall2_trans; [apply same_identity_trans|exact Hid|exact Hid1].
  - rewrite session_reset. cbn [reset fst].
    destruct (IH (reset self w).1 w) as (Hhome1 & Haway1 & Hposs1 & Hs1 & Hid1).
    cbn in Hhome1, Haway1, Hposs1.
    do 2 (split; [done|]). split; [|done]. intros _. apply Hposs1. by left.
  - simpl.
    destruct (IH (set_ball_position pos self) w)
      as (Hhome1 & Haway1 & Hposs1 & Hs1 & Hid1).
    done.
Qed.

(** X12.  No session replaces the simulator's teams, lets possession go to
    a third team, or adds, removes, renames or re-roles a player object. *)
Theorem session_keeps_teams_and_players (commands : list Command)
    (self : t) (w : World) :
  let '(self', w') := session commands self w in
  home_team self' = home_team self /\
  away_team self' = away_team self /\
  (possession_team self = home_team self \/
   possession_team self = away_team self ->
   possession_team self' = home_team self \/
   possession_team self' = away_team self) /\
  length (objects w') = length (objects w) /\
  forall i p', objects w' !! i = Some p' ->
    exists p, objects w !! i = Some p /\ same_identity p p'.
Proof.
  pose proof (session_frame commands self w) as Hf. cbv zeta in Hf.
  destruct (session commands self w) as [self' w']. cbn [fst snd] in Hf.
  destruct Hf as (Hhome & Haway & Hposs & _ & Hid).
  do 3 (split; [done|]).
  split; [symmetry; by eapply Forall2_length|].
  intros i p' Hp'.
  destruct (Forall2_lookup_r _ _ _ i p' Hid Hp') as (p & Hp & Hpp').
  by exists p.
Qed.

Lemma session_app (first second : list Command) (self : t) (w : World) :
  session (first ++ second) self w =
  session second (session first self w).1 (session first self w).2.
Proof.
  revert self w. induction first as [|[action target_pos| |pos] first IH];
    intros self w.
  - done.
  - rewrite <- app_comm_cons, !session_step. apply IH.
  - rewrite <- app_comm_cons, !session_reset. apply IH.
  - simpl. apply IH.
Qed.

(** X13.  Whatever session came before, a reset leaves exactly the
    simulator the constructor builds from the same two teams, and leaves the
    world as the session left it: players scrambled by a corner are not put
    back. *)
Theorem reset_after_session (commands : list Command)
    (home_team away_team : Team.t) (w : World) :
  let before := session commands (new home_team away_team) w in
  let after := session (commands ++ [Reset]) (new home_team away_team) w in
  after.1 = new home_team away_team /\ after.2 = before.2.
Proof.
  intros before after. unfold after. rewrite session_app. fold before.
  rewrite session_reset. cbn [session]. rewrite run_ret. cbn [fst snd].
  split; [|done].
  destruct (session_frame commands (new home_team away_team) w)
    as (Hhome & Haway & _).
  fold before in Hhome, Haway. unfold reset. rewrite run_ret. cbn [fst].
  unfold new. by rewrite Hhome, Haway.
Qed.
End Sessions.

(** * More on the passing lane *)

Section Lane.
Import PhysicsEngine.

Lemma distance_nonneg (p a b : Vec) :
  0 <= get_distance_point_to_segment p a b.
Proof.
  destruct (distance_attained p a b) as (t & _ & ->). apply euclid_nonneg.
Qed.

(** X17.  With an interception radius of zero or less no defender ever
    intercepts, wherever he stands. *)
Theorem nonpositive_radius_never_intercepts (a b : Vec)
    (defenders : list Player.t) (radius : R) :
  radius <= 0 -> check_interception a b defenders radius = (false, None).
Proof.
  intros Hr. apply check_interception_miss. apply Forall_forall.
  intros d _ Hlt.
  pose proof (distance_nonneg (Player.position d) a b). lra.
Qed.

(** X18.  Scanning a roster made of two parts answers with the scan of the
    front part when that intercepts, and with the scan of the back part
    otherwise. *)
Theorem check_interception_app (a b : Vec) (front back : list Player.t)
    (radius : R) :
  check_interception a b (front ++ back) radius =
  if (check_interception a b front radius).1
  then check_interception a b front radius
  else check_interception a b back radius.
Proof.
  induction front as [|d front IH]; [done|]. simpl.
  destruct (decide _); [done|exact IH].
Qed.

(** X19.  A pass that is intercepted with some radius is intercepted with
    every larger radius. *)
Theorem wider_radius_keeps_interception (a b : Vec)
    (defenders : list Player.t) (r1 r2 : R) :
  r1 <= r2 ->
  (check_interception a b defenders r1).1 = true ->
  (check_interception a b defenders r2).1 = true.
Proof.
  intros Hle. induction defenders as [|d rest IH]; simpl; [done|].
  destruct (decide (_ < r1)) as [H1|H1].
  - intros _. destruct (decide (_ < r2)) as [H2|H2]; [done|lra].
  - intros Hrest. destruct (decide (_ < r2)); [done|by apply IH].
Qed.
End Lane.

(** * Sample teams *)

Section SampleTeams.

Lemma np_random_uniform_unit_interval (low high : R) (w : World) :
  unit_interval (np_random w) ->
  unit_interval (np_random (np_random_uniform low high w).2).
Proof. intros Hu n. apply Hu. Qed.

Lemma np_random_uniform_cursor (low high : R) (w : World) :
  cursor (np_random (np_random_uniform low high w).2) =
  S (cursor (np_random w)).
Proof. reflexivity. Qed.

Lemma np_random_uniform_sample (low high : R) (w : World) :
  sample (np_random (np_random_uniform low high w).2) = sample (np_random w).
Proof. reflexivity. Qed.

(** What the three draws of one field player give. *)
Lemma sample_field_player_spec (name : string) (i : nat) (w : World) :
  let r := sample_field_player name i w in
  r.1 = length (objects w) /\
  sample (np_random r.2) = sample (np_random w) /\
  cursor (np_random r.2) = (cursor (np_random w) + 3)%nat /\
  exists p,
    objects r.2 = objects w ++ [p] /\
    Player.name p = name +:+ "_P" +:+ pretty (i + 1)%nat /\
    Player.position_role p =
      (if decide (i < 4)%nat then "DEF"
       else if decide (i < 7)%nat then "MF" else "FWD")%string /\
    (unit_interval (np_random w) ->
       (15 <= (Player.position p).1 <= 90) /\
       (10 <= (Player.position p).2 <= 58) /\
       (0.3 <= Player.interception_stat p <= 0.8)).
Proof.
  unfold sample_field_player.
  destruct (decide (i < 4)%nat) as [H4|H4];
    [|destruct (decide (i < 7)%nat) as [H7|H7]];
    destruct (String.eqb name "Home");
    rewrite !run_bind, run_ret; cbn [fst snd new_player];
    (split; [reflexivity|]); (split; [reflexivity|]);
    (split; [simpl; lia|]);
    eexists; (split; [reflexivity|]); (split; [reflexivity|]);
    (split; [reflexivity|]); cbn [Player.position Player.interception_stat fst snd];
    intros Hu.
  all: match goal with
       | |- (_ <= (np_random_uniform ?lo ?hi ?w0).1 <= _) /\ _ =>
           pose proof (np_random_uniform_range lo hi w0 Hu ltac:(lra)) as Hx;
           pose proof (np_random_uniform_unit_interval lo hi w0 Hu) as Hu1;
           pose proof (np_random_uniform_range 10 58 _ Hu1 ltac:(lra)) as Hy;
           pose proof (np_random_uniform_unit_interval 10 58 _ Hu1) as Hu2;
           pose proof (np_random_uniform_range 0.3 0.8 _ Hu2 ltac:(lra)) as Hs
       end; (split; [lra|]); split; [exact Hy|exact Hs].
Qed.

Lemma for_each_collect_cons {A B : Type} (x : A) (l : list A)
    (body : A -> M B) (w : World) :
  for_each_collect (x :: l) body w =
  ((body x w).1 :: (for_each_collect l body (body x w).2).1,
   (for_each_collect l body (body x w).2).2).
Proof.
  simpl. rewrite !run_bind, run_ret. done.
Qed.

(** The loop of [create_sample_team], started at index [s]. *)
Lemma collect_field_players (name : string) (n s : nat) (w : World) :
  let r := for_each_collect (seq s n) (sample_field_player name) w in
  r.1 = seq (length (objects w)) n /\
  sample (np_random r.2) = sample (np_random w) /\
  cursor (np_random r.2) = (cursor (np_random w) + 3 * n)%nat /\
  exists ps,
    objects r.2 = objects w ++ ps /\ length ps = n /\
    forall k p, ps !! k = Some p ->
      Player.name p = name +:+ "_P" +:+ pretty (s + k + 1)%nat /\
      Player.position_role p =
        (if decide (s + k < 4)%nat then "DEF"
         else if decide (s + k < 7)%nat then "MF" else "FWD")%string /\
      (unit_interval (np_random w) ->
         (15 <= (Player.position p).1 <= 90) /\
         (10 <= (Player.position p).2 <= 58) /\
         (0.3 <= Player.interception_stat p <= 0.8)).
Proof.
  revert s w. induction n as [|n IH]; intros s w.
  - cbn. split; [done|]. split; [done|]. split; [lia|].
    exists []. rewrite app_nil_r. split; [done|]. split; [done|].
    intros k p Hk. by rewrite lookup_nil in Hk.
  - cbn [seq]. rewrite for_each_collect_cons. cbn [fst snd].
    destruct (sample_field_player_spec name s w)
      as (Haddr & Hs1 & Hc1 & p & Hobj1 & Hname & Hrole & Hrange).
    destruct (IH (S s) (sample_field_player name s w).2)
      as (Haddrs & Hs2 & Hc2 & ps & Hobj2 & Hlen & Hps).
    split.
    { rewrite Haddr, Haddrs, Hobj1, length_app. simpl.
      by rewrite Nat.add_1_r. }
    split; [by rewrite Hs2|]. split; [rewrite Hc2, Hc1; lia|].
    exists (p :: ps). split; [by rewrite Hobj2, Hobj1, <- app_assoc|].
    split; [simpl; by rewrite Hlen|].
    intros [|k] q Hq; simpl in Hq.
    + injection Hq as <-. rewrite !Nat.add_0_r.
      split; [by rewrite Hname|]. split; [done|exact Hrange].
    + destruct (Hps k q Hq) as (Hn & Hr & Hrg).
      replace (s + S k)%nat with (S s + k)%nat by lia.
      split; [done|]. split; [done|].
      intros Hu. apply Hrg. intros m. rewrite Hs1. apply Hu.
Qed.

Lemma get_players_fresh (old new : list Player.t) :
  omap (fun i => (old ++ new) !! i) (seq (length old) (length new)) = new.
Proof.
  revert old. induction new as [|p new IH]; intros old; [done|].
  cbn [length seq omap list_omap].
  rewrite lookup_app_r, Nat.sub_diag by lia. cbn [lookup list_lookup].
  f_equal. specialize (IH (old ++ [p])).
  rewrite <- app_assoc, length_app in IH. simpl in IH.
  rewrite Nat.add_1_r in IH. exact IH.
Qed.

Lemma formation_length (k : nat) : length (formation k) = k.
Proof.
  unfold formation. rewrite !length_app, !length_replicate. lia.
Qed.

Lemma formation_lookup (k i : nat) :
  (i < k)%nat ->
  formation k !! i =
  Some (if decide (i < 4)%nat then "DEF"
        else if decide (i < 7)%nat then "MF" else "FWD")%string.
Proof.
  intros Hi. unfold formation.
  destruct (decide (i < 4)%nat) as [H4|H4].
  { rewrite lookup_app_l by (rewrite length_replicate; lia).
    apply lookup_replicate_2. lia. }
  rewrite lookup_app_r by (rewrite length_replicate; lia).
  rewrite length_replicate.
  destruct (decide (i < 7)%nat) as [H7|H7].
  { rewrite lookup_app_l by (rewrite length_replicate; lia).
    apply lookup_replicate_2. lia. }
  rewrite lookup_app_r by (rewrite length_replicate; lia).
  rewrite length_replicate. apply lookup_replicate_2. lia.
Qed.

Lemma create_sample_team_spec (name : string) (num_players : Z) (w : World) :
  let k := Z.to_nat (num_players - 1) in
  let r := create_sample_team name num_players w in
  Team.name r.1 = name /\
  Team.players r.1 = seq (length (objects w)) (S k) /\
  sample (np_random r.2) = sample (np_random w) /\
  cursor (np_random r.2) = (cursor (np_random w) + 3 * k)%nat /\
  exists ps,
    let gk := {| Player.name := name +:+ "_GK";
                 Player.position :=
                   (if String.eqb name "Home" then 5 else 100, 34);
                 Player.position_role := "GK";
                 Player.interception_stat := 0.5 |} in
    objects r.2 = objects w ++ gk :: ps /\ length ps = k /\
    (get_players r.1 r.2).1 = gk :: ps /\
    forall i p, ps !! i = Some p ->
      Player.name p = name +:+ "_P" +:+ pretty (i + 1)%nat /\
      Player.position_role p =
        (if decide (i < 4)%nat then "DEF"
         else if decide (i < 7)%nat then "MF" else "FWD")%string /\
      (unit_interval (np_random w) ->
         (15 <= (Player.position p).1 <= 90) /\
         (10 <= (Player.position p).2 <= 58) /\
         (0.3 <= Player.interception_stat p <= 0.8)).
Proof.
  intros k r. unfold r, create_sample_team.
  rewrite !run_bind, run_ret. cbn [fst snd Team.name Team.players].
  set (gk := {| Player.name := name +:+ "_GK" |}).
  set (w1 := (new_player gk w).2).
  destruct (collect_field_players name k 0 w1)
    as (Haddrs & Hs & Hc & ps & Hobj & Hlen & Hps).
  fold k. unfold new_player at 1. cbn [fst].
  assert (Hw1 : objects w1 = objects w ++ [gk]) by done.
  split; [done|]. split.
  { rewrite Haddrs, Hw1, length_app. simpl. by rewrite Nat.add_1_r. }
  split; [by rewrite Hs|]. split; [by rewrite Hc|].
  exists ps. cbv zeta. fold gk.
  assert (Hall : objects (for_each_collect (seq 0 k)
                   (sample_field_player name) w1).2 = objects w ++ gk :: ps).
  { by rewrite Hobj, Hw1, <- app_assoc. }
  split; [exact Hall|]. split; [exact Hlen|]. split.
  { unfold get_players. cbn [fst Team.players]. rewrite Hall, Haddrs, Hw1.
    rewrite length_app. simpl. rewrite Nat.add_1_r.
    pose proof (get_players_fresh (objects w) (gk :: ps)) as Hf.
    simpl in Hf. rewrite Hlen in Hf. exact Hf. }
  intros i p Hp. destruct (Hps i p Hp) as (Hn & Hr & Hrg).
  by rewrite !Nat.add_0_l in *.
Qed.

(** X20.  [create_sample_team] returns a team of the given name whose
    roster is a block of fresh, pairwise distinct player objects:
    [num_players] of them when [num_players] is at least 1 and a lone
    goalkeeper when it is 1 or less.  Objects that existed before are
    untouched, and three samples are drawn per field player. *)
Theorem create_sample_team_roster (name : string) (num_players : Z)
    (w : World) :
  let '(team, w') := create_sample_team name num_players w in
  Team.name team = name /\
  Team.players team =
    seq (length (objects w)) (S (Z.to_nat (num_players - 1))) /\
  ((1 <= num_players)%Z ->
     Z.of_nat (length (Team.players team)) = num_players) /\
  ((num_players <= 1)%Z -> length (Team.players team) = 1%nat) /\
  NoDup (Team.players team) /\
  length (get_players team w').1 = length (Team.players team) /\
  length (objects w') =
    (length (objects w) + length (Team.players team))%nat /\
  (forall i, (i < length (objects w))%nat ->
     objects w' !! i = objects w !! i) /\
  cursor (np_random w') =
    (cursor (np_random w) + 3 * (length (Team.players team) - 1))%nat.
Proof.
  pose proof (create_sample_team_spec name num_players w) as Hspec.
  cbv zeta in Hspec.
  destruct (create_sample_team name num_players w) as [team w'].
  cbn [fst snd] in Hspec.
  destruct Hspec as (Hname & Hplayers & _ & Hc & ps & Hobj & Hlen & Hget & _).
  assert (Hsize : length (Team.players team) =
                  S (Z.to_nat (num_players - 1)))
    by (by rewrite Hplayers, length_seq).
  split; [done|]. split; [done|]. split; [lia|]. split; [lia|].
  split; [rewrite Hplayers; apply NoDup_seq|].
  split; [rewrite Hget, Hsize; simpl; by rewrite Hlen|].
  split; [rewrite Hobj, length_app, Hsize; simpl; by rewrite Hlen|].
  split; [|rewrite Hc, Hsize; lia].
  intros i Hi. by rewrite Hobj, lookup_app_l.
Qed.

(** X21.  The first player of a sample team is its only goalkeeper; the
    field players are four defenders, then three midfielders, then forwards,
    as far as the squad size reaches; and no two players of the team have
    the same name. *)
Theorem create_sample_team_formation (name : string) (num_players : Z)
    (w : World) :
  let '(team, w') := create_sample_team name num_players w in
  let players := (get_players team w').1 in
  Player.position_role <$> players =
    "GK"%string :: formation (Z.to_nat (num_players - 1)) /\
  NoDup (Player.name <$> players).
Proof.
  pose proof (create_sample_team_spec name num_players w) as Hspec.
  cbv zeta in Hspec.
  destruct (create_sample_team name num_players w) as [team w'].
  cbn [fst snd] in Hspec.
  destruct Hspec as (_ & _ & _ & _ & ps & _ & Hlen & Hget & Hps).
  cbv zeta. rewrite Hget, !fmap_cons.
  cbn [Player.position_role Player.name]. split.
  - f_equal. apply list_eq_same_length with (Z.to_nat (num_players - 1)).
    + apply formation_length.
    + by rewrite length_fmap.
    + intros i r1 r2 Hi H1 H2.
      rewrite list_lookup_fmap in H1.
      destruct (ps !! i) as [p|] eqn:Hp; [|done]. injection H1 as <-.
      destruct (Hps i p Hp) as (_ & -> & _).
      rewrite formation_lookup in H2 by done. by injection H2.
  - apply NoDup_cons. split.
    + intros Hin. apply list_elem_of_fmap in Hin as (p & Heq & Hp).
      apply list_elem_of_lookup in Hp as (i & Hp).
      destruct (Hps i p Hp) as (Hn & _). rewrite Hn in Heq.
      apply String.app_inj in Heq. discriminate.
    + apply NoDup_alt. intros i j x Hi Hj.
      rewrite list_lookup_fmap in Hi, Hj.
      destruct (ps !! i) as [p|] eqn:Hp; [|done].
      destruct (ps !! j) as [q|] eqn:Hq; [|done].
      injection Hi as <-. injection Hj as Heq.
      destruct (Hps i p Hp) as (Hn1 & _).
      destruct (Hps j q Hq) as (Hn2 & _).
      rewrite Hn1, Hn2 in Heq.
      apply String.app_inj in Heq. apply (String.app_inj "_P") in Heq.
      apply pretty_nat_inj in Heq. lia.
Qed.

(** X22.  With samples in the unit interval, the goalkeeper of a sample
    team stands at (5, 34) for the team named Home and at (100, 34) for any
    other name, every player stands inside the pitch, and every interception
    skill lies between 0.3 and 0.8. *)
Theorem create_sample_team_in_play (name : string) (num_players : Z)
    (w : World) :
  unit_interval (np_random w) ->
  let '(team, w') := create_sample_team name num_players w in
  let players := (get_players team w').1 in
  (exists gk, players !! 0%nat = Some gk /\
     Player.position gk = (if String.eqb name "Home" then 5 else 100, 34)) /\
  forall p, p ∈ players ->
    in_play (Player.position p) /\
    0.3 <= Player.interception_stat p <= 0.8.
Proof.
  intros Hu.
  pose proof (create_sample_team_spec name num_players w) as Hspec.
  cbv zeta in Hspec.
  destruct (create_sample_team name num_players w) as [team w'].
  cbn [fst snd] in Hspec.
  destruct Hspec as (_ & _ & _ & _ & ps & _ & Hlen & Hget & Hps).
  cbv zeta. rewrite Hget. split; [by eexists|].
  intros p Hp. apply elem_of_cons in Hp as [->|Hp].
  - cbn [Player.position Player.interception_stat]. unfold in_play.
    cbn [fst snd]. destruct (String.eqb name "Home"); lra.
  - apply list_elem_of_lookup in Hp as (i & Hp).
    destruct (Hps i p Hp) as (_ & _ & Hrange).
    destruct (Hrange Hu) as (Hx & Hy & Hs). unfold in_play. lra.
Qed.
End SampleTeams.

(** * A corner between two sample teams *)

Section SampleMatch.
Import SetPieceManager.

(** The object behind the [k]-th entry of a roster that was allocated as
    one block. *)
Lemma block_lookup (before block after : list Player.t) (k i : nat) :
  seq (length before) (length block) !! k = Some i ->
  (before ++ block ++ after) !! i = block !! k.
Proof.
  intros Hk. apply lookup_seq in Hk as [-> Hlt].
  rewrite lookup_app_r by lia.
  replace (length before + k - length before)%nat with k by lia.
  by rewrite lookup_app_l.
Qed.

Lemma same_identity_lookup (l l' : list Player.t) (i : nat) (p p' : Player.t) :
  Forall2 same_identity l l' -> l !! i = Some p -> l' !! i = Some p' ->
  Player.position_role p' = Player.position_role p.
Proof.
  intros Hid Hp Hp'.
  by destruct (Forall2_lookup_lr _ _ _ i p p' Hid Hp Hp') as (_ & <- & _).
Qed.

Lemma field_player_not_keeper (i : nat) :
  (if decide (i < 4)%nat then "DEF"
   else if decide (i < 7)%nat then "MF" else "FWD")%string <> "GK"%string.
Proof. by repeat destruct (decide _). Qed.

(** X23.  After a corner between a Home and an Away sample team created
    one after the other, Home attacking: Home's goalkeeper is still at
    (5, 34), Away's goalkeeper is on the line at (104, 34), and every other
    player of either team is inside the box. *)
Theorem corner_between_sample_teams (home_size away_size : Z) (w : World) :
  unit_interval (np_random w) ->
  let '(home, w1) := create_sample_team "Home" home_size w in
  let '(away, w2) := create_sample_team "Away" away_size w1 in
  let '(ball_pos, w3) := resolve_set_piece CORNER home away w2 in
  (forall k i p, Team.players home !! k = Some i ->
     objects w3 !! i = Some p ->
     match k with
     | O => Player.position p = (5, 34)
     | S _ => in_box (Player.position p)
     end) /\
  (forall k i p, Team.players away !! k = Some i ->
     objects w3 !! i = Some p ->
     match k with
     | O => Player.position p = (104, 34)
     | S _ => in_box (Player.position p)
     end).
Proof.
  intros Hu.
  pose proof (create_sample_team_spec "Home" home_size w) as Hh.
  cbv zeta in Hh.
  destruct (create_sample_team "Home" home_size w) as [home w1].
  cbn [fst snd] in Hh.
  destruct Hh as (_ & Hhp & Hs1 & _ & psH & HobjH & HlenH & _ & HpsH).
  pose proof (create_sample_team_spec "Away" away_size w1) as Ha.
  cbv zeta in Ha.
  destruct (create_sample_team "Away" away_size w1) as [away w2].
  cbn [fst snd] in Ha.
  destruct Ha as (_ & Hap & Hs2 & _ & psA & HobjA & HlenA & _ & HpsA).
  set (gkH := {| Player.name := "Home" +:+ "_GK" |}) in *.
  set (gkA := {| Player.name := "Away" +:+ "_GK" |}) in *.
  assert (Hu2 : unit_interval (np_random w2)).
  { intros n. rewrite Hs2, Hs1. apply Hu. }
  pose proof (resolve_set_piece_corner home away w2 Hu2) as Hc.
  pose proof (resolve_set_piece_corner_effect home away w2) as He.
  cbv zeta in He.
  destruct (resolve_set_piece CORNER home away w2) as [ball_pos w3].
  cbn [fst snd] in He.
  destruct Hc as (_ & (_ & Hid & _) & Hdef & Hatt).
  destruct He as (_ & _ & Hframe).
  (* the two rosters as blocks of the store *)
  assert (HblockH : forall k i, Team.players home !! k = Some i ->
            objects w2 !! i = (gkH :: psH) !! k).
  { intros k i Hk. rewrite Hhp in Hk. rewrite HobjA, HobjH, <- app_assoc.
    apply block_lookup. simpl. by rewrite HlenH. }
  assert (HblockA : forall k i, Team.players away !! k = Some i ->
            objects w2 !! i = (gkA :: psA) !! k).
  { intros k i Hk. rewrite Hap in Hk. rewrite HobjA.
    pose proof (block_lookup (objects w1) (gkA :: psA) [] k i) as Hb.
    rewrite app_nil_r in Hb. apply Hb. simpl. by rewrite HlenA. }
  assert (Hdisjoint : forall k i, Team.players home !! k = Some i ->
            i ∉ Team.players away).
  { intros k i Hk Hin. rewrite Hhp in Hk. rewrite Hap in Hin.
    apply lookup_seq in Hk as [-> Hlt]. apply elem_of_seq in Hin.
    rewrite HobjH, length_app in Hin. simpl in Hin. lia. }
  split.
  - intros k i p Hk Hp.
    pose proof (HblockH k i Hk) as Hold.
    destruct k as [|k]; simpl in Hold.
    + rewrite Hframe in Hp.
      * rewrite Hold in Hp. by injection Hp as <-.
      * by eapply Hdisjoint.
      * right. unfold is_outfield. by rewrite Hold.
    + destruct (psH !! k) as [q|] eqn:Hq.
      2:{ apply lookup_ge_None in Hold. apply lookup_lt_Some in Hp.
          apply Forall2_length in Hid. lia. }
      eapply Hatt; [by eapply list_elem_of_lookup_2|exact Hp|].
      rewrite (same_identity_lookup _ _ _ _ _ Hid Hold Hp).
      destruct (HpsH k q Hq) as (_ & -> & _). apply field_player_not_keeper.
  - intros k i p Hk Hp.
    pose proof (HblockA k i Hk) as Hold.
    assert (Hin : i ∈ Team.players away) by (by eapply list_elem_of_lookup_2).
    destruct (Hdef i p Hin Hp) as [[Hgk Hpos]|[Hngk Hbox]];
      destruct k as [|k]; simpl in Hold.
    + done.
    + destruct (psA !! k) as [q|] eqn:Hq.
      2:{ apply lookup_ge_None in Hold. apply lookup_lt_Some in Hp.
          apply Forall2_length in Hid. lia. }
      rewrite (same_identity_lookup _ _ _ _ _ Hid Hold Hp) in Hgk.
      destruct (HpsA k q Hq) as (_ & Hr & _). rewrite Hr in Hgk.
      by destruct (field_player_not_keeper k).
    + rewrite (same_identity_lookup _ _ _ _ _ Hid Hold Hp) in Hngk.
      by destruct Hngk.
    + done.
Qed.
End SampleMatch.

(** * Changing sides *)

Section Sides.
Import SetPieceManager MatchSimulator.

Lemma team_eq_names (t1 t2 : Team.t) (w : World) :
  Team.name t1 <> Team.name t2 -> (team_eq t1 t2 w).1 = false.
Proof.
  intros Hne. unfold team_eq. cbn [fst].
  apply bool_decide_eq_false_2. by intros [? _].
Qed.

(** X6.  Between two teams with different names, an intercepted pass hands
    possession to the team that was defending, and that team's next action
    is defended by the team that lost the ball; the event's
    [possession_after] differs from its [possession_before]. *)
Theorem interception_swaps_sides (target : Vec) (self : t) (w : World) :
  Team.name (home_team self) <> Team.name (away_team self) ->
  possession_team self = home_team self \/
    possession_team self = away_team self ->
  let '((event, self'), w') := simulate_step "PASS" (Some target) self w in
  Event.result event = Some INTERCEPTED ->
  possession_team self' = (get_defending_team self w).1 /\
  Team.name (possession_team self') <> Team.name (possession_team self) /\
  (get_defending_team self' w').1 = possession_team self /\
  Event.possession_after event <> Event.possession_before event.
Proof.
  intros Hnames Hposs.
  pose proof (simulate_step_facts "PASS" (Some target) self w) as Hf.
  pose proof (simulate_step_snapshots "PASS" (Some target) self w) as Hs.
  pose proof (handle_action_possession "PASS" (Some target) self w) as Hh.
  destruct (simulate_step_teams "PASS" (Some target) self w)
    as (Hhome & Haway & _).
  cbv zeta in Hf, Hs, Hh.
  destruct (simulate_step "PASS" (Some target) self w) as [[event self'] w'].
  cbn [fst snd] in *.
  destruct Hf as (Hres & _ & _ & _ & _ & _ & Hp & _).
  destruct Hs as (_ & Hbefore & Hafter).
  unfold snapshot_before, snapshot_after, snapshot in Hbefore, Hafter.
  injection Hbefore as _ Hpb _. injection Hafter as _ Hpa _.
  intros Hint. rewrite Hres in Hint.
  destruct Hh as [(_ & _ & Hd)|[Hn _]]; [|done].
  rewrite Hp, Hd.
  assert (Hdefending : forall s0 : t,
            home_team s0 = home_team self -> away_team s0 = away_team self ->
            (possession_team s0 = home_team self ->
             forall w0, (get_defending_team s0 w0).1 = away_team self) /\
            (possession_team s0 = away_team self ->
             forall w0, (get_defending_team s0 w0).1 = home_team self)).
  { intros s0 Hh0 Ha0. split; intros Hp0 w0; unfold get_defending_team;
      rewrite run_bind, run_ret; cbn [fst]; rewrite Hp0, Hh0, Ha0.
    - unfold team_eq. cbn [fst]. by rewrite bool_decide_eq_true_2.
    - rewrite team_eq_names; [done|]. intros Heq. by apply Hnames. }
  destruct (Hdefending self eq_refl eq_refl) as [Hfrom_home Hfrom_away].
  destruct (Hdefending self' Hhome Haway) as [Hfrom_home' Hfrom_away'].
  destruct Hposs as [Hph|Hpaw].
  - rewrite (Hfrom_home Hph w) in *. rewrite Hph.
    split; [done|]. split; [by apply not_eq_sym|].
    split; [apply Hfrom_away'; by rewrite Hp, Hd|].
    rewrite Hpa, Hpb, Hp, Hd, Hph. by apply not_eq_sym.
  - rewrite (Hfrom_away Hpaw w) in *. rewrite Hpaw.
    split; [done|]. split; [done|].
    split; [apply Hfrom_home'; by rewrite Hp, Hd|].
    rewrite Hpa, Hpb, Hp, Hd, Hpaw. done.
Qed.
End Sides.

(** * A corner right after a turnover *)

Section Turnover.
Import PhysicsEngine SetPieceManager MatchSimulator.

(** The away defender stands on the lane of the pass from (2, 34) to
    (-5, 34). *)
Lemma turnover_pass_blocked :
  check_interception (2, 34) (-5, 34)
    (get_players turnover_away turnover_world).1 default_radius =
  (true, Some {| Player.name := "Defender"; Player.position := (-1, 34);
                 Player.position_role := "DEF";
                 Player.interception_stat := 0.5 |}).
Proof.
  apply check_interception_hit. exists [], [].
  split; [done|]. split; [constructor|]. cbn [Player.position].
  unfold default_radius.
  apply (distance_below _ _ _ _ (3 / 7)); [lra|].
  apply euclid_below; [lra|].
  unfold along, vadd, vscale, vsub. cbn [fst snd]. nra.
Qed.

(** C5, at the failing input.  Home (a goalkeeper at (5, 34) and an
    attacker at (40, 34)) has the ball at (2, 34) and passes to (-5, 34);
    the away defender stands on the lane at (-1, 34), behind the goal line.
    The pass is intercepted, Away takes possession, the ball is behind the
    goal line and the boundary check awards a corner.  [resolve_set_piece]
    is then handed [possession_team], now Away, as attacking team and the
    [defending_team] computed before the turnover, Away again, as defending
    team.  Home, the side that defends this corner, is not touched: its
    attacker is still at (40, 34), outside the box, and its goalkeeper
    still at (5, 34), not on the line at (104, 34). *)
Theorem corner_after_turnover_skips_defending_team :
  let '((event, self'), w') :=
    simulate_step "PASS" (Some (-5, 34)) turnover_simulator turnover_world in
  Event.result event = Some INTERCEPTED /\
  Event.interceptor event = Some "Defender"%string /\
  Event.set_piece event = Some CORNER /\
  SetPieceManager.game_state (set_piece_manager self') = CORNER /\
  possession_team self' = turnover_away /\
  (get_defending_team self' w').1 = turnover_home /\
  objects w' !! 1%nat =
    Some {| Player.name := "Attacker"; Player.position := (40, 34);
            Player.position_role := "FWD";
            Player.interception_stat := 0.5 |} /\
  ~ in_box (40, 34) /\
  objects w' !! 0%nat =
    Some {| Player.name := "Keeper"; Player.position := (5, 34);
            Player.position_role := "GK";
            Player.interception_stat := 0.5 |} /\
  ((5, 34) : Vec) <> (104, 34).
Proof.
  pose proof (simulate_step_facts "PASS" (Some (-5, 34)) turnover_simulator
                turnover_world) as Hf.
  pose proof (simulate_step_world "PASS" (Some (-5, 34)) turnover_simulator
                turnover_world) as Hw.
  destruct (simulate_step_teams "PASS" (Some (-5, 34)) turnover_simulator
              turnover_world) as (Hhome & _ & _).
  cbv zeta in Hf, Hw. rewrite handle_action_pass in Hf, Hw.
  cbv zeta in Hf, Hw.
  rewrite (get_defending_team_home turnover_simulator turnover_world eq_refl)
    in Hf, Hw.
  change (away_team turnover_simulator) with turnover_away in Hf, Hw.
  change (Ball.position (ball turnover_simulator)) with ((2, 34) : Vec)
    in Hf, Hw.
  rewrite turnover_pass_blocked in Hf, Hw.
  cbn [fst snd h_self h_defending h_result h_interceptor set_ball_position
       set_possession_team possession_team ball Ball.position
       Player.position Player.name] in Hf, Hw.
  rewrite check_boundaries_behind in Hf, Hw by lra.
  cbn [fst snd] in Hf, Hw.
  destruct (resolve_set_piece_corner_effect turnover_away turnover_away
              turnover_world) as (_ & _ & Hframe).
  destruct (simulate_step _ _ _ _) as [[event self'] w'].
  cbn [fst snd] in Hf, Hw, Hhome. subst w'.
  destruct Hf as (Hres & Hint & Hsp & _ & _ & Hgs & Hposs & _ & _).
  assert (Hout : forall j : nat, j <> 2%nat -> j ∉ Team.players turnover_away).
  { intros j Hj Hin. apply list_elem_of_singleton in Hin. done. }
  do 5 (split; [done|]). split.
  { unfold get_defending_team. rewrite run_bind, run_ret. cbn [fst].
    rewrite Hposs, Hhome. by rewrite team_eq_names. }
  split; [rewrite Hframe; [done|by apply Hout|left; by apply Hout]|].
  split; [unfold in_box; cbn [fst snd]; lra|].
  split; [rewrite Hframe; [done|by apply Hout|left; by apply Hout]|].
  intros [= Hx]. lra.
Qed.
End Turnover.

(** * Further instances *)

Section FurtherInstances.
Import PhysicsEngine SetPieceManager MatchSimulator.

(** [TestMatchSimulator.test_dribble_action] *)
Lemma shot_or_dribble_is_never_intercepted_witness :
  ("DRIBBLE" = "SHOOT" \/ "DRIBBLE" = "DRIBBLE")%string /\
  in_play (45, 35) /\
  let '((event, self'), w') :=
    simulate_step "DRIBBLE" (Some (45, 35)) fixture fixture_world in
  Event.result event = Some DRIBBLE /\
  Ball.position (ball self') = (45, 35).
Proof.
  assert (Hin : in_play (45, 35)) by (unfold in_play; cbn [fst snd]; lra).
  split; [by right|]. split; [exact Hin|].
  pose proof (shot_or_dribble_is_never_intercepted "DRIBBLE" (45, 35)
                fixture fixture_world (or_intror eq_refl)) as H.
  destruct (simulate_step _ _ _ _) as [[event self'] w'].
  destruct H as (Hres & _ & _ & Hopen).
  destruct (Hopen Hin) as (Hball & _). auto.
Defined.

(** Arsenal's goalkeeper stays on his line while Arsenal takes a corner. *)
Lemma corner_leaves_bystanders_and_attacking_keeper_witness :
  (0%nat ∉ Team.players tactical_away) /\
  (exists p, objects tactical_world !! 0%nat = Some p /\
             Player.position_role p = "GK"%string) /\
  exists p,
    objects (resolve_set_piece CORNER tactical_home tactical_away
               tactical_world).2 !! 0%nat = Some p /\
    Player.position p = (5, 34).
Proof.
  assert (Hnot : 0%nat ∉ Team.players tactical_away).
  { intros Hin. cbn in Hin. by repeat (apply elem_of_cons in Hin as [?|Hin]; [done|]);
      apply elem_of_nil in Hin. }
  assert (Hgk : exists p, objects tactical_world !! 0%nat = Some p /\
                          Player.position_role p = "GK"%string)
    by (eexists; split; reflexivity).
  split; [exact Hnot|]. split; [exact Hgk|].
  pose proof (corner_leaves_bystanders_and_attacking_keeper tactical_home
                tactical_away tactical_world 0%nat Hnot (or_intror Hgk)) as H.
  eexists. split; [etransitivity; [exact H|reflexivity]|reflexivity].
Defined.

Lemma nonpositive_radius_never_intercepts_witness :
  0 <= 0 /\
  check_interception (40, 34) (70, 34)
    (get_players fixture_away fixture_world).1 0 = (false, None).
Proof.
  split; [lra|]. apply nonpositive_radius_never_intercepts. lra.
Defined.

Lemma wider_radius_keeps_interception_witness :
  2 <= 3 /\
  (check_interception (40, 34) (70, 34)
     (get_players fixture_away fixture_world).1 2).1 = true /\
  (check_interception (40, 34) (70, 34)
     (get_players fixture_away fixture_world).1 3).1 = true.
Proof.
  assert (Hhit : (check_interception (40, 34) (70, 34)
                    (get_players fixture_away fixture_world).1 2).1 = true).
  { pose proof fixture_forward_pass_blocked as H.
    unfold default_radius in H. by rewrite H. }
  split; [lra|]. split; [exact Hhit|].
  apply (wider_radius_keeps_interception _ _ _ 2 3); [lra|exact Hhit].
Defined.

(** The steps of [TestMatchSimulator.test_reset_simulation], followed by an
    unknown action. *)
Lemma session_keeps_ball_in_play_witness :
  let commands :=
    [Stage (40, 34); Step "PASS" (Some (45, 40)); Reset] in
  stages_in_play commands /\
  in_play (Ball.position (ball (new fixture_home fixture_away))) /\
  let r := session commands (new fixture_home fixture_away) fixture_world in
  in_play (Ball.position (ball r.1)) /\
  let '((event, self'), w') := simulate_step "HOLD" None r.1 r.2 in
  Ball.position (ball self') = Ball.position (ball r.1).
Proof.
  intros commands.
  assert (Hstage : stages_in_play commands).
  { intros pos Hpos. unfold commands in Hpos.
    apply elem_of_cons in Hpos as [[= ->]|Hpos].
    - unfold in_play. cbn [fst snd]. lra.
    - apply elem_of_cons in Hpos as [?|Hpos]; [done|].
      apply elem_of_cons in Hpos as [?|Hpos]; [done|].
      by apply elem_of_nil in Hpos. }
  split; [exact Hstage|]. split; [apply new_in_play|].
  destruct (session_keeps_ball_in_play commands
              (new fixture_home fixture_away) fixture_world Hstage
              (new_in_play _ _)) as [Hin Hnoop].
  cbv zeta. split; [exact Hin|].
  specialize (Hnoop "HOLD"%string None (or_intror eq_refl)).
  destruct (simulate_step _ _ _ _) as [[event self'] w'].
  by destruct Hnoop.
Defined.

Lemma create_sample_team_in_play_witness :
  unit_interval (np_random fixture_world) /\
  let '(team, w') := create_sample_team "Home" 11 fixture_world in
  forall p, p ∈ (get_players team w').1 -> in_play (Player.position p).
Proof.
  split; [exact fixture_unit_interval|].
  pose proof (create_sample_team_in_play "Home" 11 fixture_world
                fixture_unit_interval) as H.
  destruct (create_sample_team _ _ _) as [team w'].
  destruct H as [_ H]. intros p Hp. by destruct (H p Hp).
Defined.

Lemma corner_between_sample_teams_witness :
  unit_interval (np_random fixture_world) /\
  let '(home, w1) := create_sample_team "Home" 11 fixture_world in
  let '(away, w2) := create_sample_team "Away" 11 w1 in
  let '(ball_pos, w3) := resolve_set_piece CORNER home away w2 in
  forall i p, Team.players away !! 0%nat = Some i ->
    objects w3 !! i = Some p -> Player.position p = (104, 34).
Proof.
  split; [exact fixture_unit_interval|].
  pose proof (corner_between_sample_teams 11 11 fixture_world
                fixture_unit_interval) as H.
  destruct (create_sample_team "Home" 11 fixture_world) as [home w1].
  destruct (create_sample_team "Away" 11 w1) as [away w2].
  destruct (resolve_set_piece CORNER home away w2) as [ball_pos w3].
  destruct H as [_ H]. intros i p Hi Hp. exact (H 0%nat i p Hi Hp).
Defined.

(** [TestMatchSimulator.test_intercepted_pass]: after the interception the
    home team defends. *)
Lemma interception_swaps_sides_witness :
  Team.name (home_team fixture) <> Team.name (away_team fixture) /\
  (possession_team fixture = home_team fixture \/
   possession_team fixture = away_team fixture) /\
  let '((event, self'), w') :=
    simulate_step "PASS" (Some (70, 34)) fixture fixture_world in
  Event.result event = Some INTERCEPTED /\
  possession_team self' = fixture_away /\
  (get_defending_team self' w').1 = fixture_home.
Proof.
  assert (Hnames : Team.name (home_team fixture) <>
                   Team.name (away_team fixture)) by done.
  assert (Hposs : possession_team fixture = home_team fixture \/
                  possession_team fixture = away_team fixture) by (by left).
  split; [exact Hnames|]. split; [exact Hposs|].
  pose proof (interception_swaps_sides (70, 34) fixture fixture_world
                Hnames Hposs) as H.
  pose proof (simulate_step_facts "PASS" (Some (70, 34)) fixture
                fixture_world) as Hf.
  cbv zeta in Hf. rewrite handle_action_pass in Hf. cbv zeta in Hf.
  rewrite (get_defending_team_home fixture fixture_world eq_refl) in Hf, H.
  change (away_team fixture) with fixture_away in Hf, H.
  change (Ball.position (ball fixture)) with ((40, 34) : Vec) in Hf.
  rewrite fixture_forward_pass_blocked in Hf.
  cbn [fst snd h_result] in Hf.
  destruct (simulate_step _ _ _ _) as [[event self'] w'].
  cbn [fst snd] in Hf. destruct Hf as (Hres & _).
  destruct (H Hres) as (Hp & _ & Hd & _). auto.
Defined.
End FurtherInstances.
